(** * syncServerDemo: game-time synchronisation, extrapolation and arbitration

    A shallow embedding of the algorithmic core of the repository:
    - [gamesync.PositionArbitrator] (gamesync/position_arbitrator.go),
    - the observer's per-player state and message handlers
      (client/game_client.go),
    - the authority's report window, relay and arbitration cycle
      (server/game_server.go),
    - the in-memory transport (transport/local.go).

    Go's [float64] is IEEE 754 binary64; it is embedded as Rocq's primitive
    [float], every operation rounded on its own (no fused multiply-add).
    Go's [int64] is embedded as [Z] with the two's-complement wrap-around
    written out.  Maps from player or client ids are [gmap string _]; a
    [*LocalPlayerState] stored in a map and mutated through the pointer is
    an update of the map entry.  A handler takes the payload of its message
    and decodes it first, as the source does with [parseData]: a payload
    that holds a NaN or an infinity is refused by [json.Marshal] and the
    handler returns without any effect. *)

From Stdlib Require Import ZArith Floats Uint63.
From stdpp Require Import gmap strings list fin_maps.

#[local] Set Warnings "-inexact-float".

Local Open Scope Z_scope.

(** ** Machine numbers *)

Module Int64.

Definition modulus : Z := 2 ^ 64.
Definition half : Z := 2 ^ 63.

(** The value of the low 64 bits read as a signed integer. *)
Definition wrap (z : Z) : Z := (z + half) mod modulus - half.

Definition add (a b : Z) : Z := wrap (a + b).
Definition sub (a b : Z) : Z := wrap (a - b).

(** Go's [/] on integers truncates towards zero. *)
Definition quo (a b : Z) : Z := wrap (Z.quot a b).

Definition in_range (z : Z) : Prop := - half <= z < half.

End Int64.

Module Float64.

(** [float64(i)] for an [int64] [i]: the nearest binary64, ties to even.
    [of_uint63] is correctly rounded on [0, 2^63); the sign is put back
    afterwards, and [-2^63] is a power of two. *)
Definition of_int64 (z : Z) : float :=
  let w := Int64.wrap z in
  if w =? - Int64.half then (-0x1p63)%float
  else if w <? 0 then (- PrimFloat.of_uint63 (Uint63.of_Z (- w)))%float
  else PrimFloat.of_uint63 (Uint63.of_Z w).

(** [math.Sqrt]: the correctly rounded square root. *)
Definition Sqrt (x : float) : float := PrimFloat.sqrt x.

(** [math.Pow(x, 2)], following the body of Go's [math.Pow] with [y = 2]:
    the special cases ([x == 1], a NaN, a zero, an infinity), then
    [x1, xe := Frexp(x)], one squaring of the fraction with its
    renormalisation ([if x1 < .5 { x1 += x1; xe-- }]), [a1 *= x1] from
    [a1 = 1], and [Ldexp(a1, ae)].  The square is rounded as a fraction,
    and [Ldexp] rounds once more when the result is subnormal, so that the
    result can differ from the product [x * x] there. *)
Definition Pow2 (x : float) : float :=
  if (x =? 1)%float then 1%float
  else if PrimFloat.is_nan x then nan
  else if (x =? 0)%float then 0%float
  else if PrimFloat.is_infinity x then infinity
  else
    let '(x1, xe) := Z.frexp x in
    let x1 := (x1 * x1)%float in
    let xe := 2 * xe in
    let '(x1, xe) :=
      if (x1 <? 0.5)%float then ((x1 + x1)%float, xe - 1) else (x1, xe) in
    let a1 := (1 * x1)%float in
    Z.ldexp a1 xe.

End Float64.

(** The result of a Go call that may panic at run time. *)
Inductive outcome (A : Type) : Type :=
  | Returned (a : A)
  | Panicked.
Arguments Returned {A} a.
Arguments Panicked {A}.

Definition is_panicked {A : Type} (o : outcome A) : bool :=
  match o with
  | Returned _ => false
  | Panicked => true
  end.

(** ** protocol/messages.go *)

Module protocol.

Record MoveData : Type := mkMoveData {
  mv_PlayerID : string;
  VectorX : float;
  VectorY : float;
  mv_GameTime : Z
}.

Record PositionData : Type := mkPositionData {
  PlayerID : string;
  X : float;
  Y : float;
  GameTime : Z
}.

Record PositionSyncData : Type := mkPositionSyncData {
  Positions : list PositionData;
  sync_GameTime : Z
}.

Record PositionUpdateData : Type := mkPositionUpdateData {
  upd_PlayerID : string;
  upd_X : float;
  upd_Y : float;
  upd_GameTime : Z
}.

(** The other payloads, and the message type tags. *)

Record JoinData : Type := mkJoinData {
  join_PlayerID : string
}.

Record WelcomeData : Type := mkWelcomeData {
  welcome_PlayerID : string;
  welcome_GameTime : Z;
  welcome_Players : list string;
  welcome_Positions : list PositionData
}.

Record PlayerJoinedData : Type := mkPlayerJoinedData {
  joined_PlayerID : string
}.

Definition MsgTypeJoin : string := "join".
Definition MsgTypeMove : string := "move".
Definition MsgTypePositionSync : string := "position_sync".
Definition MsgTypeWelcome : string := "welcome".
Definition MsgTypePlayerJoined : string := "player_joined".
Definition MsgTypeMoveCommand : string := "move_command".
Definition MsgTypePositionUpdate : string := "position_update".

End protocol.

(** ** encoding/json, as [parseData] uses it

    Both participants decode the payload of a message with [parseData]:
    [json.Marshal(msg.GetData())], then [json.Unmarshal] into the struct the
    handler expects, and the handler returns at once on an error.  The
    payload is the struct that the sender put in the message.
    [json.Marshal] refuses a [float64] that is a NaN or an infinity
    ([UnsupportedValueError]); every other number is written so that it
    reads back as the same value, and a player id (valid UTF-8) reads back
    as it is.  So decoding fails exactly on a payload that holds a NaN or
    an infinity, and otherwise gives the payload back. *)

Module json.

(** A [float64] that [json.Marshal] accepts. *)
Definition supported_float (x : float) : bool := PrimFloat.is_finite x.

(** [supported data]: [json.Marshal data] returns no error. *)
Class Marshal (A : Type) : Type := supported : A → bool.

#[global] Instance marshal_JoinData : Marshal protocol.JoinData :=
  fun _ => true.

#[global] Instance marshal_PlayerJoinedData : Marshal protocol.PlayerJoinedData :=
  fun _ => true.

#[global] Instance marshal_MoveData : Marshal protocol.MoveData :=
  fun data =>
    supported_float (protocol.VectorX data) &&
    supported_float (protocol.VectorY data).

#[global] Instance marshal_PositionData : Marshal protocol.PositionData :=
  fun data =>
    supported_float (protocol.X data) && supported_float (protocol.Y data).

#[global] Instance marshal_PositionSyncData : Marshal protocol.PositionSyncData :=
  fun data => forallb supported (protocol.Positions data).

#[global] Instance marshal_WelcomeData : Marshal protocol.WelcomeData :=
  fun data => forallb supported (protocol.welcome_Positions data).

#[global] Instance marshal_PositionUpdateData : Marshal protocol.PositionUpdateData :=
  fun data =>
    supported_float (protocol.upd_X data) &&
    supported_float (protocol.upd_Y data).

(** [json.Marshal] of a payload followed by [json.Unmarshal] into a struct
    of the payload's type: [None] is the error. *)
Definition round_trip {A : Type} `{Marshal A} (data : A) : option A :=
  if supported data then Some data else None.

End json.

(** ** gamesync/position_arbitrator.go *)

Module gamesync.
Import protocol.

Record PositionArbitrator : Type := mkPositionArbitrator {
  epsilon : float
}.

Definition NewPositionArbitrator (eps : float) : PositionArbitrator :=
  {| epsilon := eps |}.

Definition isSimilar (pa : PositionArbitrator) (p1 p2 : PositionData) : bool :=
  let distance :=
    Float64.Sqrt (Float64.Pow2 (X p1 - X p2) + Float64.Pow2 (Y p1 - Y p2))%float in
  (distance <=? epsilon pa)%float.

(** The inner loop of [clusterPositions]: [j] runs over [js]; a report
    whose flag is set is skipped, a report similar to the seed [pos] is
    appended to [cluster] and flagged.  An index outside [used] or
    [positions] is a run-time panic. *)
Fixpoint cluster_scan (pa : PositionArbitrator) (positions : list PositionData)
    (pos : PositionData) (js : list nat)
    (used : list bool) (cluster : list PositionData)
    : outcome (list bool * list PositionData) :=
  match js with
  | [] => Returned (used, cluster)
  | j :: js' =>
      match used !! j with
      | None => Panicked
      | Some true => cluster_scan pa positions pos js' used cluster
      | Some false =>
          match positions !! j with
          | None => Panicked
          | Some pj =>
              if isSimilar pa pos pj
              then cluster_scan pa positions pos js' (<[j := true]> used) (cluster ++ [pj])
              else cluster_scan pa positions pos js' used cluster
          end
      end
  end.

(** The outer loop of [clusterPositions]: [i] runs over [idxs]. *)
Fixpoint cluster_loop (pa : PositionArbitrator) (positions : list PositionData)
    (idxs : list nat) (used : list bool) (clusters : list (list PositionData))
    : outcome (list (list PositionData)) :=
  match idxs with
  | [] => Returned clusters
  | i :: idxs' =>
      match used !! i, positions !! i with
      | Some true, Some _ => cluster_loop pa positions idxs' used clusters
      | Some false, Some pos =>
          let n := length positions in
          match cluster_scan pa positions pos (seq (S i) (n - S i))
                  (<[i := true]> used) [pos] with
          | Returned (used', cluster) =>
              cluster_loop pa positions idxs' used' (clusters ++ [cluster])
          | Panicked => Panicked
          end
      | _, _ => Panicked
      end
  end.

Definition clusterPositions (pa : PositionArbitrator) (positions : list PositionData)
    : outcome (list (list PositionData)) :=
  let n := length positions in
  cluster_loop pa positions (seq 0 n) (replicate n false) [].

(** One step of the summing loop of [averagePosition]. *)
Definition sum_step (acc : float * float * Z) (pos : PositionData) : float * float * Z :=
  let '(sumX, sumY, sumTime) := acc in
  ((sumX + X pos)%float, (sumY + Y pos)%float, Int64.add sumTime (GameTime pos)).

Definition averagePosition (pa : PositionArbitrator) (positions : list PositionData)
    : option PositionData :=
  match positions with
  | [] => None
  | p0 :: _ =>
      let playerID := PlayerID p0 in
      let '(sumX, sumY, sumTime) := fold_left sum_step positions (0%float, 0%float, 0) in
      let count := Float64.of_int64 (Z.of_nat (length positions)) in
      Some {| PlayerID := playerID;
              X := (sumX / count)%float;
              Y := (sumY / count)%float;
              GameTime := Int64.quo sumTime (Z.of_nat (length positions)) |}
  end.

(** The [maxCluster] loop of [Arbitrate]. *)
Definition max_step (maxCluster cluster : list PositionData) : list PositionData :=
  if (length maxCluster <? length cluster)%nat then cluster else maxCluster.

Definition Arbitrate (pa : PositionArbitrator) (positions : list PositionData)
    : outcome (option PositionData) :=
  match positions with
  | [] => Returned None
  | [p] => Returned (Some p)
  | _ =>
      match clusterPositions pa positions with
      | Panicked => Panicked
      | Returned clusters =>
          match clusters with
          | [] => Panicked
          | c0 :: _ =>
              Returned (averagePosition pa (fold_left max_step clusters c0))
          end
      end
  end.

End gamesync.

(** ** client/game_client.go *)

Module client.

Record LocalPlayerState : Type := mkLocalPlayerState {
  PlayerID : string;
  X : float;
  Y : float;
  VelocityX : float;
  VelocityY : float;
  LastUpdateTime : Z
}.

(** The fields of [GameClient] that the handlers read or write. *)
Record GameClient : Type := mkGameClient {
  clientID : string;
  playerID : string;
  localPlayers : gmap string LocalPlayerState;
  moveSpeed : float
}.

Definition NewGameClient (clientID playerID : string) : GameClient :=
  {| clientID := clientID;
     playerID := playerID;
     localPlayers := ∅;
     moveSpeed := 10.0%float |}.

Definition with_localPlayers (c : GameClient)
    (players : gmap string LocalPlayerState) : GameClient :=
  {| clientID := clientID c;
     playerID := playerID c;
     localPlayers := players;
     moveSpeed := moveSpeed c |}.

(** *** Code that works on a [*LocalPlayerState]

    A function that receives a pointer to a player state reads and writes
    its fields; it is embedded as a function from the pointee before the
    call to its result and the pointee after the call. *)
Definition on_player (A : Type) : Type :=
  LocalPlayerState → A * LocalPlayerState.

#[export] Instance on_player_ret : MRet on_player :=
  fun A (a : A) player => (a, player).

#[export] Instance on_player_bind : MBind on_player :=
  fun A B (k : A → on_player B) (m : on_player A) player =>
    let '(a, player') := m player in k a player'.

(** [player.f], for a field [f]. *)
Definition read {A : Type} (f : LocalPlayerState → A) : on_player A :=
  fun player => (f player, player).

(** [player.X = x]. *)
Definition write_X (x : float) : on_player unit :=
  fun player =>
    (tt, {| PlayerID := PlayerID player;
            X := x;
            Y := Y player;
            VelocityX := VelocityX player;
            VelocityY := VelocityY player;
            LastUpdateTime := LastUpdateTime player |}).

(** [player.Y = y]. *)
Definition write_Y (y : float) : on_player unit :=
  fun player =>
    (tt, {| PlayerID := PlayerID player;
            X := X player;
            Y := y;
            VelocityX := VelocityX player;
            VelocityY := VelocityY player;
            LastUpdateTime := LastUpdateTime player |}).

(** [player.VelocityX = vx]. *)
Definition write_VelocityX (vx : float) : on_player unit :=
  fun player =>
    (tt, {| PlayerID := PlayerID player;
            X := X player;
            Y := Y player;
            VelocityX := vx;
            VelocityY := VelocityY player;
            LastUpdateTime := LastUpdateTime player |}).

(** [player.VelocityY = vy]. *)
Definition write_VelocityY (vy : float) : on_player unit :=
  fun player =>
    (tt, {| PlayerID := PlayerID player;
            X := X player;
            Y := Y player;
            VelocityX := VelocityX player;
            VelocityY := vy;
            LastUpdateTime := LastUpdateTime player |}).

(** [player.LastUpdateTime = t]. *)
Definition write_LastUpdateTime (t : Z) : on_player unit :=
  fun player =>
    (tt, {| PlayerID := PlayerID player;
            X := X player;
            Y := Y player;
            VelocityX := VelocityX player;
            VelocityY := VelocityY player;
            LastUpdateTime := t |}).

Definition updatePlayerPosition (targetTime : Z) : on_player unit :=
  lastUpdateTime ← read LastUpdateTime;
  let deltaTime :=
    (Float64.of_int64 (Int64.sub targetTime lastUpdateTime) / 1000.0)%float in
  x ← read X; vx ← read VelocityX;
  write_X (x + vx * deltaTime)%float;;
  y ← read Y; vy ← read VelocityY;
  write_Y (y + vy * deltaTime)%float;;
  write_LastUpdateTime targetTime.

Definition predictPosition (targetTime : Z) : on_player (float * float) :=
  lastUpdateTime ← read LastUpdateTime;
  let deltaTime :=
    (Float64.of_int64 (Int64.sub targetTime lastUpdateTime) / 1000.0)%float in
  x0 ← read X; vx ← read VelocityX;
  let x := (x0 + vx * deltaTime)%float in
  y0 ← read Y; vy ← read VelocityY;
  let y := (y0 + vy * deltaTime)%float in
  mret (x, y).

(** [parseData]: the decoded payload, or [None] for the error. *)
Definition parseData {A : Type} `{json.Marshal A} (data : A) : option A :=
  json.round_trip data.

(** [handleMoveCommand]; [data] is the payload of the message.  [player] is
    the pointer found in the map: what the body leaves in the pointee is
    what the map holds afterwards. *)
Definition handleMoveCommand (c : GameClient) (data : protocol.MoveData)
    : GameClient :=
  match parseData data with
  | None => c
  | Some moveData =>
      match localPlayers c !! protocol.mv_PlayerID moveData with
      | None => c
      | Some player =>
          let body : on_player unit :=
            updatePlayerPosition (protocol.mv_GameTime moveData);;
            write_VelocityX (protocol.VectorX moveData * moveSpeed c)%float;;
            write_VelocityY (protocol.VectorY moveData * moveSpeed c)%float in
          with_localPlayers c
            (<[protocol.mv_PlayerID moveData := snd (body player)]>
               (localPlayers c))
      end
  end.

(** [handlePositionUpdate]; [data] is the payload of the message. *)
Definition handlePositionUpdate (c : GameClient)
    (data : protocol.PositionUpdateData) : GameClient :=
  match parseData data with
  | None => c
  | Some updateData =>
      match localPlayers c !! protocol.upd_PlayerID updateData with
      | None => c
      | Some player =>
          let body : on_player unit :=
            '(localX, localY) ←
              predictPosition (protocol.upd_GameTime updateData);
            let errorX := (protocol.upd_X updateData - localX)%float in
            let errorY := (protocol.upd_Y updateData - localY)%float in
            let distance :=
              Float64.Sqrt (errorX * errorX + errorY * errorY)%float in
            if (0.5 <? distance)%float then
              write_X (protocol.upd_X updateData);;
              write_Y (protocol.upd_Y updateData);;
              write_LastUpdateTime (protocol.upd_GameTime updateData)
            else mret tt in
          with_localPlayers c
            (<[protocol.upd_PlayerID updateData := snd (body player)]>
               (localPlayers c))
      end
  end.

(** What [handleWelcome] does for one listed position: it replaces the
    state of its player. *)
Definition welcome_player (players : gmap string LocalPlayerState)
    (pos : protocol.PositionData) : gmap string LocalPlayerState :=
  <[protocol.PlayerID pos :=
      {| PlayerID := protocol.PlayerID pos;
         X := protocol.X pos;
         Y := protocol.Y pos;
         VelocityX := 0;
         VelocityY := 0;
         LastUpdateTime := protocol.GameTime pos |}]> players.

(** [handleWelcome]; [data] is the payload of the message.  (The rebase of
    the client's clock to [welcomeData.GameTime] is not part of
    [GameClient] here.) *)
Definition handleWelcome (c : GameClient) (data : protocol.WelcomeData)
    : GameClient :=
  match parseData data with
  | None => c
  | Some welcomeData =>
      with_localPlayers c
        (fold_left welcome_player (protocol.welcome_Positions welcomeData)
           (localPlayers c))
  end.

(** [handlePlayerJoined]; [data] is the payload of the message (an id: its
    decoding has no error), [now] is what [c.timeSyncer.GetGameTime()]
    reads. *)
Definition handlePlayerJoined (c : GameClient) (now : Z)
    (data : protocol.PlayerJoinedData) : GameClient :=
  match parseData data with
  | None => c
  | Some joinedData =>
      match localPlayers c !! protocol.joined_PlayerID joinedData with
      | Some _ => c
      | None =>
          with_localPlayers c
            (<[protocol.joined_PlayerID joinedData :=
                 {| PlayerID := protocol.joined_PlayerID joinedData;
                    X := 0;
                    Y := 0;
                    VelocityX := 0;
                    VelocityY := 0;
                    LastUpdateTime := now |}]> (localPlayers c))
      end
  end.

(** [GetPlayerPosition]; [gameTime] is what the clock reads.  The pointee
    after the call is put back in the map. *)
Definition GetPlayerPosition (c : GameClient) (playerID : string) (gameTime : Z)
    : GameClient * (float * float * bool) :=
  match localPlayers c !! playerID with
  | None => (c, (0%float, 0%float, false))
  | Some player =>
      let '((x, y), player') := predictPosition gameTime player in
      (with_localPlayers c (<[playerID := player']> (localPlayers c)),
       (x, y, true))
  end.

Section ranging.

(** The order in which a [range] over a map visits its entries is not
    fixed by Go; [range_order] is that order. *)
Variable range_order : ∀ A : Type, gmap string A → list (string * A).

(** The report [reportPositions] appends for one player. *)
Definition report_of (gameTime : Z) (player : LocalPlayerState)
    : protocol.PositionData :=
  let '(x, y) := fst (predictPosition gameTime player) in
  {| protocol.PlayerID := PlayerID player;
     protocol.X := x;
     protocol.Y := y;
     protocol.GameTime := gameTime |}.

(** [reportPositions]; [gameTime] is what the clock reads.  The result is
    the client afterwards and the payload handed to [SendToServer], if
    any. *)
Definition reportPositions (c : GameClient) (gameTime : Z)
    : GameClient * option protocol.PositionSyncData :=
  let positions :=
    map (fun entry => report_of gameTime (snd entry))
      (range_order _ (localPlayers c)) in
  let players' :=
    (fun player => snd (predictPosition gameTime player)) <$> localPlayers c in
  (with_localPlayers c players',
   if (0 <? length positions)%nat then
     Some {| protocol.Positions := positions; protocol.sync_GameTime := gameTime |}
   else None).

End ranging.

End client.

(** ** transport/transport.go and transport/local.go *)

Module transport.

(** The values a message of this repository carries in its [Data]. *)
Inductive payload : Type :=
  | JoinPayload (d : protocol.JoinData)
  | MovePayload (d : protocol.MoveData)
  | PositionSyncPayload (d : protocol.PositionSyncData)
  | WelcomePayload (d : protocol.WelcomeData)
  | PlayerJoinedPayload (d : protocol.PlayerJoinedData)
  | PositionUpdatePayload (d : protocol.PositionUpdateData).

Record BaseMessage : Type := mkBaseMessage {
  msg_Type : string;
  msg_Data : payload
}.

Definition GetType (m : BaseMessage) : string := msg_Type m.
Definition GetData (m : BaseMessage) : payload := msg_Data m.

Definition NewMessage (msgType : string) (data : payload) : BaseMessage :=
  {| msg_Type := msgType; msg_Data := data |}.

(** *** Buffered channels

    A [chan A] made with a capacity: the values buffered, oldest first, and
    whether the channel has been closed.  Closing a closed channel and
    sending on a closed channel panic. *)
Record chan (A : Type) : Type := mkChan {
  chan_buf : list A;
  chan_cap : nat;
  chan_closed : bool
}.
Arguments mkChan {A} _ _ _.
Arguments chan_buf {A} _.
Arguments chan_cap {A} _.
Arguments chan_closed {A} _.

(** [make(chan A, n)]. *)
Definition make_chan (A : Type) (n : nat) : chan A :=
  {| chan_buf := []; chan_cap := n; chan_closed := false |}.

(** [close(ch)]. *)
Definition close_chan {A : Type} (ch : chan A) : outcome (chan A) :=
  if chan_closed ch then Panicked
  else Returned {| chan_buf := chan_buf ch; chan_cap := chan_cap ch;
                   chan_closed := true |}.

(** [select { case ch <- a: ... default: ... }]: [Some] is the channel
    after the send, [None] the default branch, taken when the buffer is
    full. *)
Definition try_send {A : Type} (ch : chan A) (a : A) : outcome (option (chan A)) :=
  if chan_closed ch then Panicked
  else if (length (chan_buf ch) <? chan_cap ch)%nat then
    Returned (Some {| chan_buf := chan_buf ch ++ [a]; chan_cap := chan_cap ch;
                      chan_closed := chan_closed ch |})
  else Returned None.

(** What a receive [v, ok := <-ch] does. *)
Inductive received (A : Type) : Type :=
  | Got (a : A) (ch : chan A)
  | Drained
  | Blocks.
Arguments Got {A} a ch.
Arguments Drained {A}.
Arguments Blocks {A}.

Definition recv {A : Type} (ch : chan A) : received A :=
  match chan_buf ch with
  | a :: rest =>
      Got a {| chan_buf := rest; chan_cap := chan_cap ch;
               chan_closed := chan_closed ch |}
  | [] => if chan_closed ch then Drained else Blocks
  end.

(** *** LocalTransport *)

(** The errors the transport returns, by their message. *)
Inductive error : Type :=
  | ErrClosed                                (* "transport is closed" *)
  | ErrAlreadyRegistered (clientID : string) (* "client %s already registered" *)
  | ErrNotFound (clientID : string)          (* "client %s not found" *)
  | ErrChannelFull (clientID : string)       (* "client %s channel full" *)
  | ErrIncomingFull                          (* "server incoming channel full" *)
  | ErrReceiveClosed.                        (* "transport closed" *)

Section local.
Context {Message : Type}.

Record MessageWithSender : Type := mkMessageWithSender {
  sender_ClientID : string;
  sender_Message : Message
}.

Record LocalTransport : Type := mkLocalTransport {
  channels : gmap string (chan Message);
  incoming : chan MessageWithSender;
  closed : bool
}.

Definition NewLocalTransport : LocalTransport :=
  {| channels := ∅; incoming := make_chan MessageWithSender 100; closed := false |}.

Definition with_channels (t : LocalTransport)
    (chs : gmap string (chan Message)) : LocalTransport :=
  {| channels := chs; incoming := incoming t; closed := closed t |}.

(** The embedding is sequential: one call runs at a time, so each method
    is one step on the transport.  [Register], [Unregister], [Send],
    [Broadcast], [Close] and [GetClientChannel] hold the transport's lock
    in the source; [Receive] and [SendToServer] take no lock
    ([SendToServer] reads [closed] outside it), and what they do when
    another call runs at the same time is not described here. *)
Definition Register (t : LocalTransport) (clientID : string)
    : LocalTransport * option error :=
  if closed t then (t, Some ErrClosed)
  else match channels t !! clientID with
       | Some _ => (t, Some (ErrAlreadyRegistered clientID))
       | None =>
           (with_channels t (<[clientID := make_chan Message 100]> (channels t)),
            None)
       end.

Definition Unregister (t : LocalTransport) (clientID : string)
    : outcome (LocalTransport * option error) :=
  match channels t !! clientID with
  | Some ch =>
      match close_chan ch with
      | Panicked => Panicked
      | Returned _ => Returned (with_channels t (delete clientID (channels t)), None)
      end
  | None => Returned (t, None)
  end.

Definition Send (t : LocalTransport) (clientID : string) (msg : Message)
    : outcome (LocalTransport * option error) :=
  if closed t then Returned (t, Some ErrClosed)
  else match channels t !! clientID with
       | None => Returned (t, Some (ErrNotFound clientID))
       | Some ch =>
           match try_send ch msg with
           | Panicked => Panicked
           | Returned (Some ch') =>
               Returned (with_channels t (<[clientID := ch']> (channels t)), None)
           | Returned None => Returned (t, Some (ErrChannelFull clientID))
           end
       end.

(** One iteration of the loop of [Broadcast].  An iteration touches the
    channel of its own client only, so the order in which the map is
    ranged over does not show in the result. *)
Definition broadcast_to (msg : Message) (excludeID : string)
    (id : string) (ch : chan Message) : outcome (chan Message) :=
  if decide (id = excludeID) then Returned ch
  else match try_send ch msg with
       | Panicked => Panicked
       | Returned (Some ch') => Returned ch'
       | Returned None => Returned ch
       end.

Definition Broadcast (t : LocalTransport) (msg : Message) (excludeID : string)
    : outcome (LocalTransport * option error) :=
  if closed t then Returned (t, Some ErrClosed)
  else if decide (map_Forall
                    (fun id ch => is_panicked (broadcast_to msg excludeID id ch) = false)
                    (channels t))
  then Returned
         (with_channels t
            (map_imap
               (fun id ch =>
                  match broadcast_to msg excludeID id ch with
                  | Returned ch' => Some ch'
                  | Panicked => Some ch
                  end) (channels t)),
          None)
  else Panicked.

(** [Receive] takes the oldest message sent to the server; it blocks while
    there is none and fails once the transport is closed and drained. *)
Inductive receive_result : Type :=
  | Receive_ok (clientID : string) (msg : Message) (t : LocalTransport)
  | Receive_error (e : error)
  | Receive_blocks.

Definition Receive (t : LocalTransport) : receive_result :=
  match recv (incoming t) with
  | Got m inc =>
      Receive_ok (sender_ClientID m) (sender_Message m)
        {| channels := channels t; incoming := inc; closed := closed t |}
  | Drained => Receive_error ErrReceiveClosed
  | Blocks => Receive_blocks
  end.

Definition Close (t : LocalTransport) : outcome (LocalTransport * option error) :=
  if closed t then Returned (t, None)
  else if decide (map_Forall (fun _ ch => chan_closed ch = false) (channels t))
  then match close_chan (incoming t) with
       | Panicked => Panicked
       | Returned inc =>
           Returned
             ({| channels :=
                   (fun ch => {| chan_buf := chan_buf ch; chan_cap := chan_cap ch;
                                 chan_closed := true |}) <$> channels t;
                 incoming := inc;
                 closed := true |},
              None)
       end
  else Panicked.

Definition GetClientChannel (t : LocalTransport) (clientID : string)
    : option (chan Message) * option error :=
  match channels t !! clientID with
  | Some ch => (Some ch, None)
  | None => (None, Some (ErrNotFound clientID))
  end.

Definition SendToServer (t : LocalTransport) (clientID : string) (msg : Message)
    : outcome (LocalTransport * option error) :=
  if closed t then Returned (t, Some ErrClosed)
  else match try_send (incoming t)
               {| sender_ClientID := clientID; sender_Message := msg |} with
       | Panicked => Panicked
       | Returned (Some inc) =>
           Returned ({| channels := channels t; incoming := inc; closed := closed t |},
                     None)
       | Returned None => Returned (t, Some ErrIncomingFull)
       end.

(** What a client's [messageLoop] does for one message: it takes the oldest
    message of its own channel. *)
Definition client_receive (t : LocalTransport) (clientID : string)
    : option (Message * LocalTransport) :=
  match channels t !! clientID with
  | None => None
  | Some ch =>
      match recv ch with
      | Got m ch' => Some (m, with_channels t (<[clientID := ch']> (channels t)))
      | _ => None
      end
  end.

End local.

Arguments MessageWithSender : clear implicits.
Arguments LocalTransport : clear implicits.
Arguments receive_result : clear implicits.

End transport.

(** ** server/game_server.go *)

Module server.

(** [positionReports]: player id, then reporting client id. *)
Record GameServer : Type := mkGameServer {
  positionReports : gmap string (gmap string protocol.PositionData)
}.

(** The body of the loop of [handlePositionSync]: an absent inner map is
    made first, then [positionReports[pos.PlayerID][clientID] = pos]. *)
Definition store_report (clientID : string)
    (reports : gmap string (gmap string protocol.PositionData))
    (pos : protocol.PositionData)
    : gmap string (gmap string protocol.PositionData) :=
  let inner :=
    match reports !! protocol.PlayerID pos with
    | None => ∅
    | Some m => m
    end in
  <[protocol.PlayerID pos := <[clientID := pos]> inner]> reports.

(** [parseData]: the decoded payload, or [None] for the error. *)
Definition parseData {A : Type} `{json.Marshal A} (data : A) : option A :=
  json.round_trip data.

(** [handlePositionSync]; [data] is the payload of the message. *)
Definition handlePositionSync (s : GameServer) (clientID : string)
    (data : protocol.PositionSyncData) : GameServer :=
  match parseData data with
  | None => s
  | Some syncData =>
      {| positionReports :=
           fold_left (store_report clientID) (protocol.Positions syncData)
             (positionReports s) |}
  end.

(** [PlayerState], and the fields [players] and [arbitrator] of
    [GameServer], which the functions below take beside [positionReports]. *)
Record PlayerState : Type := mkPlayerState {
  ps_PlayerID : string;
  ps_X : float;
  ps_Y : float;
  LastSync : Z
}.

(** [NewGameServer] makes the arbitrator with [NewPositionArbitrator(1.0)]. *)
Definition server_arbitrator : gamesync.PositionArbitrator :=
  gamesync.NewPositionArbitrator 1.0.

(** A call of a method of the [transport.Transport] the server holds.  The
    server ignores what [Send] and [Broadcast] return. *)
Inductive transport_call : Type :=
  | CallSend (clientID : string) (msg : transport.BaseMessage)
  | CallBroadcast (msg : transport.BaseMessage) (excludeID : string).

Section ranging.

Variable range_order : ∀ A : Type, gmap string A → list (string * A).

(** [handleJoin]; [data] is the payload of the message (an id: its decoding
    has no error), [now1] and [now2] are the two readings of the clock. *)
Definition handleJoin (players : gmap string PlayerState) (now1 now2 : Z)
    (clientID : string) (data : protocol.JoinData)
    : gmap string PlayerState * list transport_call :=
  match parseData data with
  | None => (players, [])
  | Some joinData =>
      let playerID := protocol.join_PlayerID joinData in
      let players' :=
        <[playerID :=
            {| ps_PlayerID := playerID; ps_X := 0; ps_Y := 0; LastSync := now1 |}]>
          players in
      let visited := range_order _ players' in
      let names := map (fun entry => ps_PlayerID (snd entry)) visited in
      let positions :=
        map (fun entry =>
               {| protocol.PlayerID := ps_PlayerID (snd entry);
                  protocol.X := ps_X (snd entry);
                  protocol.Y := ps_Y (snd entry);
                  protocol.GameTime := LastSync (snd entry) |}) visited in
      let welcomeMsg :=
        transport.NewMessage protocol.MsgTypeWelcome
          (transport.WelcomePayload
             {| protocol.welcome_PlayerID := playerID;
                protocol.welcome_GameTime := now2;
                protocol.welcome_Players := names;
                protocol.welcome_Positions := positions |}) in
      let joinedMsg :=
        transport.NewMessage protocol.MsgTypePlayerJoined
          (transport.PlayerJoinedPayload
             {| protocol.joined_PlayerID := playerID |}) in
      (players', [CallSend clientID welcomeMsg; CallBroadcast joinedMsg clientID])
  end.

(** [handleMove]; [data] is the payload of the message.  Nothing is
    broadcast when it does not decode. *)
Definition handleMove (data : protocol.MoveData) : list transport_call :=
  match parseData data with
  | None => []
  | Some moveData =>
      [CallBroadcast
         (transport.NewMessage protocol.MsgTypeMoveCommand
            (transport.MovePayload moveData)) ""]
  end.

(** The body of the loop of [performArbitration] for one player of the
    window taken. *)
Definition arbitrate_player (pa : gamesync.PositionArbitrator)
    (acc : gmap string PlayerState * list transport_call)
    (entry : string * gmap string protocol.PositionData)
    : outcome (gmap string PlayerState * list transport_call) :=
  let '(players, calls) := acc in
  let '(playerID, reportMap) := entry in
  let positions := map snd (range_order _ reportMap) in
  match gamesync.Arbitrate pa positions with
  | Panicked => Panicked
  | Returned None => Returned (players, calls)
  | Returned (Some arbitratedPos) =>
      let players' :=
        match players !! playerID with
        | Some player =>
            <[playerID :=
                {| ps_PlayerID := ps_PlayerID player;
                   ps_X := protocol.X arbitratedPos;
                   ps_Y := protocol.Y arbitratedPos;
                   LastSync := protocol.GameTime arbitratedPos |}]> players
        | None => players
        end in
      let updateMsg :=
        transport.NewMessage protocol.MsgTypePositionUpdate
          (transport.PositionUpdatePayload
             {| protocol.upd_PlayerID := protocol.PlayerID arbitratedPos;
                protocol.upd_X := protocol.X arbitratedPos;
                protocol.upd_Y := protocol.Y arbitratedPos;
                protocol.upd_GameTime := protocol.GameTime arbitratedPos |}) in
      Returned (players', calls ++ [CallBroadcast updateMsg ""])
  end.

Fixpoint arbitrate_all (pa : gamesync.PositionArbitrator)
    (entries : list (string * gmap string protocol.PositionData))
    (acc : gmap string PlayerState * list transport_call)
    : outcome (gmap string PlayerState * list transport_call) :=
  match entries with
  | [] => Returned acc
  | entry :: entries' =>
      match arbitrate_player pa acc entry with
      | Panicked => Panicked
      | Returned acc' => arbitrate_all pa entries' acc'
      end
  end.

(** [performArbitration]: the window is taken and replaced by an empty one,
    then every player of the window taken is arbitrated. *)
Definition performArbitration (pa : gamesync.PositionArbitrator)
    (s : GameServer) (players : gmap string PlayerState)
    : outcome (GameServer * gmap string PlayerState * list transport_call) :=
  let reports := positionReports s in
  let s' := {| positionReports := ∅ |} in
  match arbitrate_all pa (range_order _ reports) (players, []) with
  | Panicked => Panicked
  | Returned (players', calls) => Returned (s', players', calls)
  end.

End ranging.

End server.

(** ** Seed-relative clustering, as the specification words it *)

Module spec.
Import protocol gamesync.

(** Reports are taken in input order.  The first unassigned report seeds
    a cluster; the later unassigned reports within [epsilon] of the seed
    join it, in order; the others stay unassigned.  The recursion is on
    the number of reports still unassigned. *)
Fixpoint seed_clusters_upto (pa : PositionArbitrator) (fuel : nat)
    (reports : list PositionData) : list (list PositionData) :=
  match fuel, reports with
  | S fuel', seed :: rest =>
      (seed :: List.filter (fun q => isSimilar pa seed q) rest)
      :: seed_clusters_upto pa fuel'
           (List.filter (fun q => negb (isSimilar pa seed q)) rest)
  | _, _ => []
  end.

Definition seed_clusters (pa : PositionArbitrator)
    (reports : list PositionData) : list (list PositionData) :=
  seed_clusters_upto pa (length reports) reports.

(** The reports whose [used] flag is still off, in input order. *)
Fixpoint pending (used : list bool) (reports : list PositionData)
    : list PositionData :=
  match used, reports with
  | u :: used', p :: reports' =>
      if u then pending used' reports' else p :: pending used' reports'
  | _, _ => []
  end.

(** Sum of a list of [float64] from [0], left to right. *)
Definition fsum (xs : list float) : float := fold_left PrimFloat.add xs 0%float.

(** Sum of a list of integers. *)
Definition zsum (zs : list Z) : Z := fold_right Z.add 0 zs.

(** The report stored for [entity] by [observer], if any. *)
Definition report_at (reports : gmap string (gmap string PositionData))
    (entity observer : string) : option PositionData :=
  match reports !! entity with
  | None => None
  | Some m => m !! observer
  end.

(** The last report about [entity] in a batch, if any. *)
Fixpoint latest_for (entity : string) (batch : list PositionData)
    : option PositionData :=
  match batch with
  | [] => None
  | p :: batch' =>
      match latest_for entity batch' with
      | Some q => Some q
      | None => if decide (PlayerID p = entity) then Some p else None
      end
  end.

End spec.

(** ** Inputs used in the examples *)

Module examples.
Import protocol gamesync client.

(** The arbitrator the server creates: [NewPositionArbitrator(1.0)]. *)
Definition arbitrator : PositionArbitrator := NewPositionArbitrator 1.0.

Definition report (id : string) (x y : float) (t : Z) : PositionData :=
  {| protocol.PlayerID := id; protocol.X := x; protocol.Y := y; GameTime := t |}.

Definition alice_move : MoveData :=
  {| mv_PlayerID := "Alice"; VectorX := 1.0; VectorY := 0.0; mv_GameTime := 1000 |}.

Definition alice_at_rest : LocalPlayerState :=
  {| client.PlayerID := "Alice"; client.X := 0; client.Y := 0;
     VelocityX := 0; VelocityY := 0; LastUpdateTime := 0 |}.

(** A client that has not heard of Alice, and one that tracks her. *)
Definition fresh_client : GameClient := NewGameClient "client_1" "Bob".

Definition tracking_client : GameClient :=
  with_localPlayers fresh_client {[ "Alice" := alice_at_rest ]}.

(** A direction so long that ten times its length is not a finite
    [float64]. *)
Definition huge_move : MoveData :=
  {| mv_PlayerID := "Alice"; VectorX := 1e308; VectorY := 0.0; mv_GameTime := 1000 |}.

Definition near_update : PositionUpdateData :=
  {| upd_PlayerID := "Alice"; upd_X := 0.5; upd_Y := 0; upd_GameTime := 1000 |}.

Definition far_update : PositionUpdateData :=
  {| upd_PlayerID := "Alice"; upd_X := 0.75; upd_Y := 0; upd_GameTime := 1000 |}.

(** Payloads that hold a [float64] which [json.Marshal] refuses. *)
Definition infinite_update : PositionUpdateData :=
  {| upd_PlayerID := "Alice"; upd_X := infinity; upd_Y := 0; upd_GameTime := 1000 |}.

Definition nan_move : MoveData :=
  {| mv_PlayerID := "Alice"; VectorX := nan; VectorY := 0.0; mv_GameTime := 1000 |}.

Definition nan_batch : PositionSyncData :=
  {| Positions := [report "Alice" 1 2 1000; report "Bob" nan 0 1000];
     sync_GameTime := 1000 |}.

End examples.

(** ** Conditions used in the further properties *)

Module props.

(** [range_order] visits every entry of a map once. *)
Definition visits_each_entry_once
    (range_order : ∀ A : Type, gmap string A → list (string * A)) : Prop :=
  ∀ (A : Type) (m : gmap string A), range_order A m ≡ₚ map_to_list m.

(** Every state is stored under the player id it bears. *)
Definition keyed_by_id (players : gmap string client.LocalPlayerState) : Prop :=
  map_Forall (fun id st => client.PlayerID st = id) players.

(** A [float64] that is a zero or a NaN. *)
Definition zero_or_nan (x : float) : Prop :=
  (∃ s, Prim2SF x = S754_zero s) ∨ Prim2SF x = S754_nan.

(** Every player of the window has a report, and every report is stored
    under the player id it bears. *)
Definition window_ok
    (reports : gmap string (gmap string protocol.PositionData)) : Prop :=
  map_Forall
    (fun entity m =>
       m ≠ ∅ ∧ map_Forall (fun _ r => protocol.PlayerID r = entity) m)
    reports.

(** The messages waiting for a client, oldest first. *)
Definition queue {Message : Type} (t : transport.LocalTransport Message)
    (clientID : string) : option (list Message) :=
  transport.chan_buf <$> transport.channels t !! clientID.

(** The states of a transport that its methods keep to: channels have the
    capacity they were made with and hold no more; they are open while the
    transport is open and closed once it is closed. *)
Definition chan_ok {A : Type} (is_closed : bool) (ch : transport.chan A) : Prop :=
  transport.chan_cap ch = 100%nat
  ∧ (length (transport.chan_buf ch) ≤ 100)%nat
  ∧ transport.chan_closed ch = is_closed.

Definition transport_ok {Message : Type}
    (t : transport.LocalTransport Message) : Prop :=
  map_Forall (fun _ ch => chan_ok (transport.closed t) ch) (transport.channels t)
  ∧ chan_ok (transport.closed t) (transport.incoming t).

(** The order of [map_to_list], and its reverse. *)
Definition listed_order (A : Type) (m : gmap string A) : list (string * A) :=
  map_to_list m.

Definition reversed_order (A : Type) (m : gmap string A) : list (string * A) :=
  reverse (map_to_list m).

(** What the arbitration of one player's reports gives, the reports taken
    in the order the map is ranged over. *)
Definition verdict
    (range_order : ∀ A : Type, gmap string A → list (string * A))
    (pa : gamesync.PositionArbitrator)
    (reportMap : gmap string protocol.PositionData)
    : option protocol.PositionData :=
  match gamesync.Arbitrate pa (map snd (range_order _ reportMap)) with
  | Returned (Some r) => Some r
  | _ => None
  end.

(** The broadcast of an arbitrated position. *)
Definition position_update_call (r : protocol.PositionData)
    : server.transport_call :=
  server.CallBroadcast
    (transport.NewMessage protocol.MsgTypePositionUpdate
       (transport.PositionUpdatePayload
          {| protocol.upd_PlayerID := protocol.PlayerID r;
             protocol.upd_X := protocol.X r;
             protocol.upd_Y := protocol.Y r;
             protocol.upd_GameTime := protocol.GameTime r |})) "".

(** The server's record of a player, moved to an arbitrated position. *)
Definition moved_to (r : protocol.PositionData) (p : server.PlayerState)
    : server.PlayerState :=
  {| server.ps_PlayerID := server.ps_PlayerID p;
     server.ps_X := protocol.X r;
     server.ps_Y := protocol.Y r;
     server.LastSync := protocol.GameTime r |}.

(** The player a position update names. *)
Definition updated_player (call : server.transport_call) : option string :=
  match call with
  | server.CallBroadcast
      {| transport.msg_Data := transport.PositionUpdatePayload u |} _ =>
      Some (protocol.upd_PlayerID u)
  | _ => None
  end.

(** The server's records are stored under the player id they bear. *)
Definition records_keyed_by_id (players : gmap string server.PlayerState) : Prop :=
  map_Forall (fun id p => server.ps_PlayerID p = id) players.

(** A call of the server on the [Transport] interface, when the transport
    is a [LocalTransport]. *)
Definition run_call (t : transport.LocalTransport transport.BaseMessage)
    (call : server.transport_call)
    : outcome (transport.LocalTransport transport.BaseMessage
               * option transport.error) :=
  match call with
  | server.CallSend clientID msg => transport.Send t clientID msg
  | server.CallBroadcast msg excludeID => transport.Broadcast t msg excludeID
  end.

(** The position update a call broadcasts, if it is one. *)
Definition update_of (call : server.transport_call)
    : option protocol.PositionUpdateData :=
  match call with
  | server.CallBroadcast
      {| transport.msg_Data := transport.PositionUpdatePayload u |} _ => Some u
  | _ => None
  end.

(** A window in which three clients report Alice at (0, 0), (0, 0.9) and
    (0, 1.8). *)
Definition spread_window : gmap string (gmap string protocol.PositionData) :=
  {[ "Alice" :=
       {[ "client_0" := {| protocol.PlayerID := "Alice"; protocol.X := 0;
                           protocol.Y := 0; protocol.GameTime := 1000 |};
          "client_1" := {| protocol.PlayerID := "Alice"; protocol.X := 0;
                           protocol.Y := 0.9; protocol.GameTime := 1000 |};
          "client_2" := {| protocol.PlayerID := "Alice"; protocol.X := 0;
                           protocol.Y := 1.8; protocol.GameTime := 1000 |} ]} ]}.

(** A transport on which one client has registered. *)
Definition one_client : transport.LocalTransport transport.BaseMessage :=
  fst (transport.Register transport.NewLocalTransport "client_0").

Definition a_move_message : transport.BaseMessage :=
  transport.NewMessage protocol.MsgTypeMove
    (transport.MovePayload
       {| protocol.mv_PlayerID := "Alice"; protocol.VectorX := 1;
          protocol.VectorY := 0; protocol.mv_GameTime := 1000 |}).

End props.

(** ** The clustering loops compute the seed-relative clusters *)

Section clustering.
Import protocol gamesync spec.
Local Open Scope nat_scope.

Variable pa : PositionArbitrator.
Variable positions : list PositionData.

Lemma pending_all_free (ps : list PositionData) :
  pending (replicate (length ps) false) ps = ps.
Proof. induction ps as [|p ps IH]; simpl; [done | by rewrite IH]. Qed.

Lemma pending_length (used : list bool) (ps : list PositionData) :
  length (pending used ps) ≤ length ps.
Proof.
  revert ps; induction used as [|u used IH]; intros [|p ps]; simpl; try lia.
  specialize (IH ps). destruct u; simpl; lia.
Qed.

Lemma pending_drop_used (used : list bool) j p :
  used !! j = Some true → positions !! j = Some p →
  pending (drop j used) (drop j positions)
  = pending (drop (S j) used) (drop (S j) positions).
Proof. intros Hu Hp. by rewrite (drop_S _ _ _ Hu), (drop_S _ _ _ Hp). Qed.

Lemma pending_drop_free (used : list bool) j p :
  used !! j = Some false → positions !! j = Some p →
  pending (drop j used) (drop j positions)
  = p :: pending (drop (S j) used) (drop (S j) positions).
Proof. intros Hu Hp. by rewrite (drop_S _ _ _ Hu), (drop_S _ _ _ Hp). Qed.

Lemma pending_drop_end (used : list bool) j :
  length positions ≤ j → pending (drop j used) (drop j positions) = [].
Proof.
  intros Hj. rewrite (drop_ge positions) by done. by destruct (drop j used).
Qed.

(** The inner loop from index [j]: the pending reports similar to the
    seed are appended in order and flagged; the flags below [j] and the
    pending reports that are not similar are left as they were. *)
Lemma cluster_scan_spec (pos : PositionData) k :
  ∀ j (used : list bool) (cluster : list PositionData),
    length used = length positions →
    j + k = length positions →
    ∃ used',
      cluster_scan pa positions pos (seq j k) used cluster
      = Returned (used',
          cluster ++ List.filter (fun q => isSimilar pa pos q)
                       (pending (drop j used) (drop j positions)))
      ∧ length used' = length positions
      ∧ (∀ i, i < j → used' !! i = used !! i)
      ∧ pending (drop j used') (drop j positions)
        = List.filter (fun q => negb (isSimilar pa pos q))
            (pending (drop j used) (drop j positions)).
Proof.
  induction k as [|k IH]; intros j used cluster Hlen Hjk.
  - exists used. simpl. rewrite pending_drop_end by lia. simpl.
    rewrite app_nil_r. done.
  - simpl.
    destruct (lookup_lt_is_Some_2 used j) as [u Hu]; [lia|].
    destruct (lookup_lt_is_Some_2 positions j) as [pj Hpj]; [lia|].
    rewrite Hu. destruct u.
    + destruct (IH (S j) used cluster) as (used' & Hrun & Hl & Hlow & Hpend);
        [done | lia |].
      exists used'. rewrite Hrun.
      assert (used' !! j = Some true) as Hu' by (rewrite Hlow; [done | lia]).
      rewrite (pending_drop_used used j pj), (pending_drop_used used' j pj) by done.
      repeat split; try done. intros i Hi. apply Hlow. lia.
    + rewrite Hpj.
      rewrite (pending_drop_free used j pj) by done. simpl.
      destruct (isSimilar pa pos pj) eqn:Hsim; simpl.
      * destruct (IH (S j) (<[j := true]> used) (cluster ++ [pj]))
          as (used' & Hrun & Hl & Hlow & Hpend);
          [by rewrite length_insert | lia |].
        rewrite drop_insert_lt in Hrun, Hpend by lia.
        exists used'. rewrite Hrun, <- app_assoc. simpl.
        assert (used' !! j = Some true) as Hu'.
        { rewrite Hlow by lia. apply list_lookup_insert_eq. lia. }
        rewrite (pending_drop_used used' j pj) by done.
        repeat split; try done.
        intros i Hi. rewrite Hlow by lia. apply list_lookup_insert_ne. lia.
      * destruct (IH (S j) used cluster) as (used' & Hrun & Hl & Hlow & Hpend);
          [done | lia |].
        exists used'. rewrite Hrun.
        assert (used' !! j = Some false) as Hu' by (rewrite Hlow; [done | lia]).
        rewrite (pending_drop_free used' j pj) by done. rewrite Hpend.
        repeat split; try done. intros i Hi. apply Hlow. lia.
Qed.

End clustering.

Section clustering_loop.
Import protocol gamesync spec.
Local Open Scope nat_scope.

Variable pa : PositionArbitrator.
Variable positions : list PositionData.

Lemma filter_length_bound (f : PositionData → bool) (l : list PositionData) :
  length (List.filter f l) ≤ length l.
Proof. induction l as [|x l IH]; simpl; [lia|]. destruct (f x); simpl; lia. Qed.

(** The outer loop from index [i]: the clusters already formed are kept
    and the seed-relative clusters of the pending reports follow. *)
Lemma cluster_loop_spec k :
  ∀ i (used : list bool) (clusters : list (list PositionData)) fuel,
    length used = length positions →
    i + k = length positions →
    length (pending (drop i used) (drop i positions)) ≤ fuel →
    cluster_loop pa positions (seq i k) used clusters
    = Returned (clusters ++
        seed_clusters_upto pa fuel (pending (drop i used) (drop i positions))).
Proof.
  induction k as [|k IH]; intros i used clusters fuel Hlen Hik Hfuel.
  - simpl. rewrite pending_drop_end by lia.
    destruct fuel; simpl; by rewrite app_nil_r.
  - simpl.
    destruct (lookup_lt_is_Some_2 used i) as [u Hu]; [lia|].
    destruct (lookup_lt_is_Some_2 positions i) as [pos Hpos]; [lia|].
    rewrite Hu, Hpos. destruct u.
    + rewrite (pending_drop_used positions used i pos) in * by done.
      apply IH; [done | lia | done].
    + rewrite (pending_drop_free positions used i pos) in * by done.
      destruct fuel as [|fuel]; simpl in Hfuel; [lia|].
      destruct (cluster_scan_spec pa positions pos
                  (length positions - S i) (S i) (<[i := true]> used) [pos])
        as (used' & Hrun & Hl & _ & Hpend);
        [by rewrite length_insert | lia |].
      rewrite drop_insert_lt in Hrun, Hpend by lia.
      rewrite Hrun.
      rewrite (IH (S i) used' _ fuel); [| done | lia |].
      * rewrite Hpend, <- app_assoc. done.
      * rewrite Hpend.
        pose proof (filter_length_bound (fun q => negb (isSimilar pa pos q))
                      (pending (drop (S i) used) (drop (S i) positions))).
        lia.
Qed.

(** [clusterPositions] never panics and returns the seed-relative clusters. *)
Lemma clusterPositions_seed_clusters :
  clusterPositions pa positions = Returned (seed_clusters pa positions).
Proof.
  unfold clusterPositions, seed_clusters.
  rewrite (cluster_loop_spec (length positions) 0 _ [] (length positions)).
  - rewrite !drop_0, pending_all_free. done.
  - by rewrite length_replicate.
  - done.
  - rewrite !drop_0, pending_all_free. done.
Qed.

End clustering_loop.

(** ** Properties of the clusters *)

Section clusters.
Import protocol gamesync spec.
Local Open Scope nat_scope.

Variable pa : PositionArbitrator.

Lemma seed_clusters_upto_enough fuel :
  ∀ fuel' (l : list PositionData),
    length l ≤ fuel → length l ≤ fuel' →
    seed_clusters_upto pa fuel l = seed_clusters_upto pa fuel' l.
Proof.
  induction fuel as [|fuel IH]; intros fuel' [|seed rest] H1 H2;
    simpl in *; try lia; try (by destruct fuel').
  destruct fuel' as [|fuel']; [lia|]. simpl. f_equal.
  pose proof (filter_length_bound (fun q => negb (isSimilar pa seed q)) rest).
  apply IH; lia.
Qed.

Lemma seed_clusters_cons (seed : PositionData) (rest : list PositionData) :
  seed_clusters pa (seed :: rest)
  = (seed :: List.filter (fun q => isSimilar pa seed q) rest)
    :: seed_clusters pa (List.filter (fun q => negb (isSimilar pa seed q)) rest).
Proof.
  unfold seed_clusters. simpl. f_equal.
  pose proof (filter_length_bound (fun q => negb (isSimilar pa seed q)) rest).
  apply seed_clusters_upto_enough; lia.
Qed.

Lemma seed_clusters_upto_nonempty fuel (l : list PositionData) :
  Forall (fun c => c ≠ []) (seed_clusters_upto pa fuel l).
Proof.
  revert l; induction fuel as [|fuel IH]; intros [|seed rest]; simpl;
    constructor; [done | apply IH].
Qed.

Lemma filter_split_perm (f : PositionData → bool) (l : list PositionData) :
  List.filter f l ++ List.filter (fun q => negb (f q)) l ≡ₚ l.
Proof.
  induction l as [|x l IH]; simpl; [done|].
  destruct (f x); simpl.
  - by rewrite IH.
  - rewrite <- Permutation_middle. by rewrite IH.
Qed.

(** Every report lands in exactly one cluster. *)
Lemma seed_clusters_upto_perm fuel :
  ∀ l : list PositionData,
    length l ≤ fuel → concat (seed_clusters_upto pa fuel l) ≡ₚ l.
Proof.
  induction fuel as [|fuel IH]; intros [|seed rest] Hl; simpl in *;
    try done; try lia.
  pose proof (filter_length_bound (fun q => negb (isSimilar pa seed q)) rest).
  rewrite IH by lia. by rewrite filter_split_perm.
Qed.

Lemma filter_sublist (f : PositionData → bool) (l : list PositionData) :
  List.filter f l `sublist_of` l.
Proof.
  induction l as [|x l IH]; simpl; [done|].
  destruct (f x); [by apply sublist_skip | by apply sublist_cons].
Qed.

(** The seeds of the clusters, in the order the clusters were formed,
    occur in that order in the input. *)
Lemma seed_clusters_upto_seeds fuel :
  ∀ l : list PositionData,
    omap head (seed_clusters_upto pa fuel l) `sublist_of` l.
Proof.
  induction fuel as [|fuel IH]; intros [|seed rest]; simpl; try done.
  - apply sublist_nil_l.
  - apply sublist_skip. etrans; [apply IH | apply filter_sublist].
Qed.

End clusters.

(** ** The majority vote *)

Section majority.
Import protocol gamesync spec.
Local Open Scope nat_scope.

(** What the [maxCluster] loop leaves in [maxCluster]: either its initial
    value, when no cluster is strictly larger, or the first of the
    clusters of largest size. *)
Lemma max_step_fold (clusters : list (list PositionData)) :
  ∀ acc : list PositionData,
    (fold_left max_step clusters acc = acc
     ∧ ∀ c, c ∈ clusters → length c ≤ length acc)
    ∨ (∃ k, clusters !! k = Some (fold_left max_step clusters acc)
            ∧ length acc < length (fold_left max_step clusters acc)
            ∧ (∀ c, c ∈ clusters →
                  length c ≤ length (fold_left max_step clusters acc))
            ∧ (∀ i c, i < k → clusters !! i = Some c →
                  length c < length (fold_left max_step clusters acc))).
Proof.
  induction clusters as [|c cs IH]; intros acc; cbn [fold_left].
  - left. split; [done|]. intros c Hc. by apply elem_of_nil in Hc.
  - destruct (Nat.ltb_spec (length acc) (length c)) as [Hlt|Hge].
    + assert (max_step acc c = c) as ->.
      { unfold max_step. by rewrite (proj2 (Nat.ltb_lt _ _) Hlt). }
      right. destruct (IH c) as [[Hw Hall]|(k & Hk & Hlen & Hall & Hbefore)].
      * exists 0. rewrite Hw. simpl. repeat split; try done.
        -- intros c' [->|Hc']%elem_of_cons; [lia | by apply Hall].
        -- intros i c' Hi. lia.
      * exists (S k). simpl. repeat split; try done; try lia.
        -- intros c' [->|Hc']%elem_of_cons; [lia | by apply Hall].
        -- intros [|i] c' Hi Hc'; simpl in Hc'.
           ++ injection Hc' as <-. lia.
           ++ apply (Hbefore i); [lia | done].
    + assert (max_step acc c = acc) as ->.
      { unfold max_step. by rewrite (proj2 (Nat.ltb_ge _ _) Hge). }
      destruct (IH acc) as [[Hw Hall]|(k & Hk & Hlen & Hall & Hbefore)].
      * left. split; [done|].
        intros c' [->|Hc']%elem_of_cons; [lia | by apply Hall].
      * right. exists (S k). simpl. repeat split; try done.
        -- intros c' [->|Hc']%elem_of_cons; [lia | by apply Hall].
        -- intros [|i] c' Hi Hc'; simpl in Hc'.
           ++ injection Hc' as <-. lia.
           ++ apply (Hbefore i); [lia | done].
Qed.

(** Started from [clusters[0]], the loop ends on the first cluster of
    largest size. *)
Lemma max_step_first_largest (c0 : list PositionData)
    (cs : list (list PositionData)) :
  ∃ k, (c0 :: cs) !! k = Some (fold_left max_step (c0 :: cs) c0)
       ∧ (∀ c, c ∈ c0 :: cs → length c ≤ length (fold_left max_step (c0 :: cs) c0))
       ∧ (∀ i c, i < k → (c0 :: cs) !! i = Some c →
             length c < length (fold_left max_step (c0 :: cs) c0)).
Proof.
  destruct (max_step_fold (c0 :: cs) c0) as [[Hw Hall]|(k & Hk & _ & Hall & Hb)].
  - exists 0. rewrite Hw. repeat split; [done|]. intros i c Hi. lia.
  - exists k. done.
Qed.

End majority.

(** ** Wrap-around arithmetic *)

Section int64_facts.

Lemma wrap_in_range (z : Z) : Int64.in_range z → Int64.wrap z = z.
Proof.
  unfold Int64.in_range, Int64.wrap, Int64.modulus, Int64.half. intros Hz.
  rewrite Z.mod_small; lia.
Qed.

Lemma wrap_range (z : Z) : Int64.in_range (Int64.wrap z).
Proof.
  unfold Int64.in_range, Int64.wrap, Int64.modulus, Int64.half.
  pose proof (Z.mod_pos_bound (z + 2 ^ 63) (2 ^ 64)). lia.
Qed.

Lemma wrap_add_l (a b : Z) : Int64.wrap (Int64.wrap a + b) = Int64.wrap (a + b).
Proof.
  unfold Int64.wrap. f_equal.
  replace ((a + Int64.half) mod Int64.modulus - Int64.half + b + Int64.half)
    with ((a + Int64.half) mod Int64.modulus + b) by lia.
  rewrite Zplus_mod_idemp_l. f_equal. lia.
Qed.

Lemma sub_diag (t : Z) : Int64.sub t t = 0.
Proof. unfold Int64.sub. by rewrite Z.sub_diag. Qed.

(** The quotient of an [int64] by a positive count fits in an [int64]. *)
Lemma quo_by_count (s n : Z) :
  Int64.in_range s → 0 < n → Int64.quo s n = Z.quot s n.
Proof.
  intros Hs Hn. unfold Int64.quo. apply wrap_in_range.
  unfold Int64.in_range, Int64.half in *.
  pose proof (Z.quot_rem' s n) as Hq.
  pose proof (Z.rem_bound_abs s n ltac:(lia)) as Hr.
  destruct (Z_le_gt_dec 0 s) as [Hpos|Hneg]; nia.
Qed.

(** The running [int64] sum is the sum of the terms, wrapped once. *)
Lemma fold_add_wrap (ts : list Z) :
  ∀ c, fold_left Int64.add ts (Int64.wrap c) = Int64.wrap (c + spec.zsum ts).
Proof.
  induction ts as [|t ts IH]; intros c; simpl.
  - by rewrite Z.add_0_r.
  - unfold Int64.add at 2. rewrite wrap_add_l, IH. f_equal. lia.
Qed.

End int64_facts.

(** ** The mean of a cluster *)

Section average.
Import protocol gamesync spec.

(** The three accumulators of the summing loop run independently. *)
Lemma fold_sum_step (ps : list PositionData) :
  ∀ sx sy st,
    fold_left sum_step ps (sx, sy, st)
    = (fold_left PrimFloat.add (map X ps) sx,
       fold_left PrimFloat.add (map Y ps) sy,
       fold_left Int64.add (map GameTime ps) st).
Proof.
  induction ps as [|p ps IH]; intros sx sy st; simpl; [done | apply IH].
Qed.

Lemma averagePosition_cons (pa : PositionArbitrator)
    (p : PositionData) (rest : list PositionData) :
  averagePosition pa (p :: rest)
  = Some {| PlayerID := PlayerID p;
            X := (fsum (map X (p :: rest))
                  / Float64.of_int64 (Z.of_nat (length (p :: rest))))%float;
            Y := (fsum (map Y (p :: rest))
                  / Float64.of_int64 (Z.of_nat (length (p :: rest))))%float;
            GameTime :=
              Z.quot (Int64.wrap (zsum (map GameTime (p :: rest))))
                     (Z.of_nat (length (p :: rest))) |}.
Proof.
  unfold averagePosition. rewrite fold_sum_step.
  change 0 with (Int64.wrap 0) at 1. rewrite fold_add_wrap, Z.add_0_l.
  rewrite quo_by_count; [done | apply wrap_range |].
  cbn [length]. lia.
Qed.

(** On two or more reports the averaged cluster has a first member. *)
Lemma arbitrate_nonempty_winner (pa : PositionArbitrator)
    (p1 p2 : PositionData) (rest : list PositionData) :
  ∃ w ws, w :: ws ∈ seed_clusters pa (p1 :: p2 :: rest)
          ∧ Arbitrate pa (p1 :: p2 :: rest)
            = Returned (averagePosition pa (w :: ws)).
Proof.
  unfold Arbitrate. rewrite clusterPositions_seed_clusters.
  pose proof (seed_clusters_upto_nonempty pa (length (p1 :: p2 :: rest))
                (p1 :: p2 :: rest)) as Hne.
  fold (seed_clusters pa (p1 :: p2 :: rest)) in Hne.
  rewrite seed_clusters_cons in *.
  set (c0 := p1 :: List.filter (fun q => isSimilar pa p1 q) (p2 :: rest)) in *.
  set (cs := seed_clusters pa _) in *.
  destruct (max_step_first_largest c0 cs) as (k & Hk & _ & _).
  apply list_elem_of_lookup_2 in Hk.
  rewrite Forall_forall in Hne. pose proof (Hne _ Hk) as Hw.
  destruct (fold_left max_step (c0 :: cs) c0) as [|w ws] eqn:Hfold; [done|].
  exists w, ws. done.
Qed.

End average.

(** ** The arbitrator: claims *)

Section arbitrator_claims.
Import protocol gamesync spec examples.
Local Open Scope nat_scope.

(** C5.  [Arbitrate] on no report returns [nil]; on exactly one report it
    returns that report as it is: same player id, x, y and game time. *)
Theorem arbitrate_empty_and_single (pa : PositionArbitrator) :
  Arbitrate pa [] = Returned None
  ∧ ∀ p : PositionData,
      Arbitrate pa [p] = Returned (Some p)
      ∧ Arbitrate pa [p]
        = Returned (Some {| PlayerID := PlayerID p; X := X p; Y := Y p;
                            GameTime := GameTime p |}).
Proof. split; [done|]. intros [id x y t]. done. Qed.

(** C2.  Clustering is relative to the seed.  Similarity is the rounded
    Euclidean distance compared with [epsilon]; the first report seeds the
    first cluster, the later reports join it exactly when they are similar
    to the seed, in input order, and the reports left over are clustered
    in the same way.  With A = (0,0), B = (0,0.9), C = (0,1.8) and
    [epsilon = 1.0], B joins A, C does not although it is similar to B;
    the clusters are [A;B] and [C] and the arbitrated position is
    (0, 0.45). *)
Theorem clustering_is_seed_relative :
  (∀ pa p q,
      isSimilar pa p q
      = (Float64.Sqrt (Float64.Pow2 (X p - X q) + Float64.Pow2 (Y p - Y q))
         <=? epsilon pa)%float)
  ∧ (∀ pa, clusterPositions pa [] = Returned [])
  ∧ (∀ pa seed rest, ∃ others,
        clusterPositions pa
          (List.filter (fun q => negb (isSimilar pa seed q)) rest)
        = Returned others
        ∧ clusterPositions pa (seed :: rest)
          = Returned ((seed :: List.filter (fun q => isSimilar pa seed q) rest)
                      :: others))
  ∧ (∀ id tA tB tC,
        let a := report id 0 0 tA in
        let b := report id 0 0.9 tB in
        let c := report id 0 1.8 tC in
        isSimilar arbitrator a b = true
        ∧ isSimilar arbitrator a c = false
        ∧ isSimilar arbitrator b c = true
        ∧ clusterPositions arbitrator [a; b; c] = Returned [[a; b]; [c]]
        ∧ ∃ r, Arbitrate arbitrator [a; b; c] = Returned (Some r)
               ∧ X r = 0%float ∧ Y r = 0.45%float).
Proof.
  split; [done|]. split; [done|]. split.
  - intros pa seed rest. eexists. split.
    + apply clusterPositions_seed_clusters.
    + rewrite clusterPositions_seed_clusters. f_equal. apply seed_clusters_cons.
  - intros id tA tB tC a b c.
    assert (isSimilar arbitrator a b = true) as Hab by (vm_compute; reflexivity).
    assert (isSimilar arbitrator a c = false) as Hac by (vm_compute; reflexivity).
    assert (isSimilar arbitrator b c = true) as Hbc by (vm_compute; reflexivity).
    assert (clusterPositions arbitrator [a; b; c] = Returned [[a; b]; [c]]) as Hcl.
    { rewrite clusterPositions_seed_clusters. rewrite seed_clusters_cons.
      cbn [List.filter]. rewrite Hab, Hac. cbn [negb List.filter].
      rewrite seed_clusters_cons. done. }
    repeat split; try done.
    unfold Arbitrate. rewrite Hcl. cbn [fold_left].
    change (max_step (max_step [a; b] [a; b]) [c]) with [a; b].
    subst a. rewrite averagePosition_cons.
    eexists. split; [reflexivity|]. cbn [X Y]. split; vm_compute; reflexivity.
Qed.

(** C3.  On two or more reports [Arbitrate] averages the cluster with the
    most members; among clusters of that size it takes the one formed
    first.  The clusters are listed in the order in which they were
    formed, which is the order in which their seeds occur in the input. *)
Theorem arbitrate_first_largest_cluster (pa : PositionArbitrator)
    (p1 p2 : PositionData) (rest : list PositionData) :
  ∃ clusters k winner,
    clusterPositions pa (p1 :: p2 :: rest) = Returned clusters
    ∧ omap head clusters `sublist_of` (p1 :: p2 :: rest)
    ∧ clusters !! k = Some winner
    ∧ Arbitrate pa (p1 :: p2 :: rest) = Returned (averagePosition pa winner)
    ∧ (∀ c, c ∈ clusters → length c ≤ length winner)
    ∧ (∀ i c, i < k → clusters !! i = Some c → length c < length winner).
Proof.
  exists (seed_clusters pa (p1 :: p2 :: rest)).
  unfold Arbitrate. rewrite clusterPositions_seed_clusters.
  pose proof (seed_clusters_upto_seeds pa (length (p1 :: p2 :: rest))
                (p1 :: p2 :: rest)) as Hseeds.
  fold (seed_clusters pa (p1 :: p2 :: rest)) in Hseeds.
  rewrite seed_clusters_cons in *.
  set (c0 := p1 :: List.filter (fun q => isSimilar pa p1 q) (p2 :: rest)) in *.
  set (cs := seed_clusters pa _) in *.
  destruct (max_step_first_largest c0 cs) as (k & Hk & Hall & Hbefore).
  exists k, (fold_left max_step (c0 :: cs) c0). done.
Qed.

(** C4.  The output for a cluster with members [w :: ws]: x and y are
    the [float64] sums of the members' x and y, taken in order from 0,
    divided by the member count; the game time is the [int64] sum of the
    members' game times divided by the count, truncating; the player id is
    that of the first member.  On two or more reports the result of
    [Arbitrate] is this output for one of the clusters, whose first member
    is one of the reports. *)
Theorem average_of_winning_cluster (pa : PositionArbitrator) :
  (∀ (w : PositionData) (ws : list PositionData),
      averagePosition pa (w :: ws)
      = Some {| PlayerID := PlayerID w;
                X := (fsum (map X (w :: ws))
                      / Float64.of_int64 (Z.of_nat (length (w :: ws))))%float;
                Y := (fsum (map Y (w :: ws))
                      / Float64.of_int64 (Z.of_nat (length (w :: ws))))%float;
                GameTime :=
                  Z.quot (Int64.wrap (zsum (map GameTime (w :: ws))))
                         (Z.of_nat (length (w :: ws))) |})
  ∧ (∀ (p1 p2 : PositionData) (rest : list PositionData),
        ∃ clusters w ws,
          clusterPositions pa (p1 :: p2 :: rest) = Returned clusters
          ∧ w :: ws ∈ clusters
          ∧ w ∈ p1 :: p2 :: rest
          ∧ Arbitrate pa (p1 :: p2 :: rest)
            = Returned (Some
                {| PlayerID := PlayerID w;
                   X := (fsum (map X (w :: ws))
                         / Float64.of_int64 (Z.of_nat (length (w :: ws))))%float;
                   Y := (fsum (map Y (w :: ws))
                         / Float64.of_int64 (Z.of_nat (length (w :: ws))))%float;
                   GameTime :=
                     Z.quot (Int64.wrap (zsum (map GameTime (w :: ws))))
                            (Z.of_nat (length (w :: ws))) |})).
Proof.
  split; [apply averagePosition_cons|].
  intros p1 p2 rest.
  destruct (arbitrate_nonempty_winner pa p1 p2 rest) as (w & ws & Hin & Harb).
  exists (seed_clusters pa (p1 :: p2 :: rest)), w, ws.
  split; [apply clusterPositions_seed_clusters|]. split; [done|]. split.
  - rewrite <- (seed_clusters_upto_perm pa (length (p1 :: p2 :: rest))) by done.
    apply list_elem_of_In, in_concat. exists (w :: ws).
    split; [by apply list_elem_of_In | by left].
  - by rewrite Harb, averagePosition_cons.
Qed.

(** C10.  On a non-empty input [clusterPositions] returns clusters that
    hold every report exactly once and are all non-empty, and [Arbitrate]
    returns a report; [Arbitrate] returns [nil] only on the empty input,
    and never panics. *)
Theorem arbitrate_nonempty_returns_report (pa : PositionArbitrator) :
  (∀ (p : PositionData) (rest : list PositionData),
      (∃ clusters,
          clusterPositions pa (p :: rest) = Returned clusters
          ∧ concat clusters ≡ₚ p :: rest
          ∧ Forall (fun c => c ≠ []) clusters
          ∧ clusters ≠ [])
      ∧ ∃ r, Arbitrate pa (p :: rest) = Returned (Some r))
  ∧ (∀ positions, Arbitrate pa positions = Returned None ↔ positions = [])
  ∧ (∀ positions, Arbitrate pa positions ≠ Panicked).
Proof.
  assert (∀ (p : PositionData) (rest : list PositionData),
             ∃ r, Arbitrate pa (p :: rest) = Returned (Some r)) as Hsome.
  { intros p [|p2 rest]; [by exists p|].
    destruct (arbitrate_nonempty_winner pa p p2 rest) as (w & q & Hw & ->).
    rewrite averagePosition_cons. by eexists. }
  split; [|split].
  - intros p rest. split; [|apply Hsome].
    exists (seed_clusters pa (p :: rest)).
    split; [apply clusterPositions_seed_clusters|].
    split; [by apply seed_clusters_upto_perm|].
    split; [apply seed_clusters_upto_nonempty|].
    by rewrite seed_clusters_cons.
  - intros [|p rest]; [done|].
    destruct (Hsome p rest) as [r Hr]. rewrite Hr. split; [congruence | done].
  - intros [|p rest]; [done|].
    destruct (Hsome p rest) as [r Hr]. by rewrite Hr.
Qed.

(** Three clients report the same player at (10.0, 0), (10.3, 0) and
    (50.0, 0): the first two agree within 1.0 and the result is their mean. *)
Example arbitration_of_three_reports :
  Arbitrate arbitrator
    [report "Alice" 10.0 0 1000%Z; report "Alice" 10.3 0 1001%Z;
     report "Alice" 50.0 0 1003%Z]
  = Returned (Some (report "Alice" 10.15 0 1000%Z)).
Proof. vm_compute. reflexivity. Qed.

(** [math.Pow(x, 2)] is the product [x * x] on ordinary values; on a
    subnormal square its two roundings can give the neighbouring
    [float64]. *)
Example pow2_of_ordinary_and_tiny_values :
  Float64.Pow2 0.9 = (0.9 * 0.9)%float
  ∧ Float64.Pow2 (-1.5) = 2.25%float
  ∧ Float64.Pow2 1e200 = infinity
  ∧ (Float64.Pow2 0x1.f0c5341ebe7e3p-512 =? 0x1.f0c5341ebe7e3p-512 * 0x1.f0c5341ebe7e3p-512)%float
    = false.
Proof. repeat split; vm_compute; reflexivity. Qed.

End arbitrator_claims.

(** ** Facts about binary64 *)

Section float64_facts.
Local Open Scope float_scope.

Lemma SFcompare_antisym (x y : spec_float) :
  SFcompare y x = option_map CompOpp (SFcompare x y).
Proof.
  destruct x as [sx|sx| |sx mx ex], y as [sy|sy| |sy my ey]; simpl;
    try destruct sx; try destruct sy; try reflexivity;
    rewrite (Z.compare_antisym ex ey); destruct (ex ?= ey)%Z; simpl;
    try reflexivity;
    rewrite ?CompOpp_involutive; rewrite Pos.compare_cont_antisym; reflexivity.
Qed.

Lemma SFcompare_refl (x : spec_float) :
  x ≠ S754_nan → SFcompare x x = Some Eq.
Proof.
  destruct x as [s|s| |s m e]; simpl; intros Hx; try done.
  - by destruct s.
  - rewrite Z.compare_refl, Pos.compare_cont_refl. by destruct s.
Qed.

(** [x <= y] excludes [y < x] (and a NaN satisfies neither). *)
Lemma leb_true_ltb_false (x y : float) :
  (x <=? y) = true → (y <? x) = false.
Proof.
  rewrite FloatAxioms.leb_spec, FloatAxioms.ltb_spec. unfold SFleb, SFltb.
  rewrite (SFcompare_antisym (Prim2SF x) (Prim2SF y)).
  by destruct (SFcompare (Prim2SF x) (Prim2SF y)) as [[]|].
Qed.

Lemma is_nan_false (x : float) : is_nan x = false → Prim2SF x ≠ S754_nan.
Proof.
  unfold is_nan. rewrite FloatAxioms.eqb_spec. intros H Hx.
  rewrite Hx in H. done.
Qed.

Lemma is_finite_true (v : float) :
  is_finite v = true →
  (∃ s, Prim2SF v = S754_zero s) ∨ (∃ s m e, Prim2SF v = S754_finite s m e).
Proof.
  unfold is_finite, is_nan, is_infinity.
  rewrite !FloatAxioms.eqb_spec, FloatAxioms.abs_spec.
  change (Prim2SF infinity) with (S754_infinity false).
  destruct (Prim2SF v) as [s|s| |s m e]; simpl; intros H; eauto.
  - destruct s; done.
  - done.
Qed.

(** Adding zero elapsed time: [x + v * 0 == x] when [v] is finite and [x]
    is not a NaN. *)
Lemma add_mul_zero (x v : float) :
  is_finite v = true → is_nan x = false → (x + v * 0 =? x) = true.
Proof.
  intros Hv%is_finite_true Hx%is_nan_false.
  rewrite FloatAxioms.eqb_spec, FloatAxioms.add_spec, FloatAxioms.mul_spec.
  change (Prim2SF 0) with (S754_zero false).
  unfold SFeqb.
  destruct Hv as [[s ->]|(s & m & e & ->)];
    destruct (Prim2SF x) as [sx|sx| |sx mx ex] eqn:Ex; try done;
    cbn [SF64mul SFmul SF64add SFadd xorb];
    try (destruct s, sx; done);
    try (destruct sx; done);
    rewrite SFcompare_refl; done.
Qed.

End float64_facts.

(** ** Decoding a payload *)

Section decoding.
Import protocol.
Local Open Scope float_scope.

Lemma round_trip_supported {A : Type} `{json.Marshal A} (data : A) :
  json.supported data = true → json.round_trip data = Some data.
Proof. unfold json.round_trip. by intros ->. Qed.

Lemma round_trip_unsupported {A : Type} `{json.Marshal A} (data : A) :
  json.supported data = false → json.round_trip data = None.
Proof. unfold json.round_trip. by intros ->. Qed.

Lemma supported_MoveData (m : MoveData) :
  json.supported m = is_finite (VectorX m) && is_finite (VectorY m).
Proof. reflexivity. Qed.

Lemma supported_PositionUpdateData (upd : PositionUpdateData) :
  json.supported upd = is_finite (upd_X upd) && is_finite (upd_Y upd).
Proof. reflexivity. Qed.

Lemma supported_PositionSyncData (syncData : PositionSyncData) :
  json.supported syncData
  = forallb (fun pos => is_finite (X pos) && is_finite (Y pos))
      (Positions syncData).
Proof. reflexivity. Qed.

Lemma supported_WelcomeData (welcomeData : WelcomeData) :
  json.supported welcomeData
  = forallb (fun pos => is_finite (X pos) && is_finite (Y pos))
      (welcome_Positions welcomeData).
Proof. reflexivity. Qed.

End decoding.

(** ** The observer: claims *)

Section observer_claims.
Import protocol client examples.
Local Open Scope float_scope.




(** Running code on a player state: unfold the plumbing. *)
Ltac run_on_player :=
  cbv beta iota zeta delta
    [mbind mret on_player_bind on_player_ret read write_X write_Y
     write_VelocityX write_VelocityY write_LastUpdateTime
     updatePlayerPosition predictPosition fst snd].

Lemma with_localPlayers_same (c : GameClient) :
  with_localPlayers c (localPlayers c) = c.
Proof. by destruct c. Qed.

Lemma zero_elapsed (t : Z) : Float64.of_int64 (Int64.sub t t) / 1000.0 = 0.
Proof. rewrite sub_diag. vm_compute. reflexivity. Qed.

(** C8.  [predictPosition] is the linear extrapolation from the
    checkpoint, for every game time [t], before or after the checkpoint:
    position plus velocity times the elapsed seconds, the elapsed time
    being the [int64] difference converted to [float64] and divided by
    1000.  It only reads the state: the state after the call is the state
    before it, position, velocity and checkpoint included. *)
Theorem predict_is_linear_and_pure (player : LocalPlayerState) (t : Z) :
  predictPosition t player
  = ((X player
      + VelocityX player
        * (Float64.of_int64 (Int64.sub t (LastUpdateTime player)) / 1000),
      Y player
      + VelocityY player
        * (Float64.of_int64 (Int64.sub t (LastUpdateTime player)) / 1000)),
     player).
Proof. reflexivity. Qed.

(** C6 (as the code has it).  An authoritative position with finite x and
    y, for a tracked player: when the distance between the prediction at
    the update's game time and the authoritative position is at most 0.5
    the client is left as it was; when it is above 0.5 the player's x, y
    and checkpoint become those of the update and the velocity is kept.
    An update whose x or y is a NaN or an infinity does not decode and the
    client is left as it was. *)
Theorem position_update_threshold (c : GameClient)
    (upd : PositionUpdateData) (player : LocalPlayerState) :
  localPlayers c !! upd_PlayerID upd = Some player →
  let predicted := fst (predictPosition (upd_GameTime upd) player) in
  let errorX := upd_X upd - fst predicted in
  let errorY := upd_Y upd - snd predicted in
  let distance := Float64.Sqrt (errorX * errorX + errorY * errorY) in
  (is_finite (upd_X upd) = true → is_finite (upd_Y upd) = true →
   ((distance <=? 0.5) = true → handlePositionUpdate c upd = c)
   ∧ ((0.5 <? distance) = true →
      handlePositionUpdate c upd
      = with_localPlayers c
          (<[upd_PlayerID upd :=
               {| PlayerID := PlayerID player;
                  X := upd_X upd;
                  Y := upd_Y upd;
                  VelocityX := VelocityX player;
                  VelocityY := VelocityY player;
                  LastUpdateTime := upd_GameTime upd |}]> (localPlayers c))))
  ∧ (is_finite (upd_X upd) && is_finite (upd_Y upd) = false →
     handlePositionUpdate c upd = c).
Proof.
  intros Hplayer predicted errorX errorY distance.
  unfold handlePositionUpdate, parseData. split.
  - intros Hx Hy. rewrite round_trip_supported
      by (rewrite supported_PositionUpdateData, Hx, Hy; done).
    rewrite Hplayer.
    subst distance errorX errorY predicted. run_on_player.
    split; intros Hd.
    + apply leb_true_ltb_false in Hd. rewrite Hd.
      rewrite insert_id by done. apply with_localPlayers_same.
    + rewrite Hd. reflexivity.
  - intros Hxy. by rewrite round_trip_unsupported.
Qed.

Lemma position_update_threshold_witness :
  handlePositionUpdate tracking_client near_update = tracking_client
  ∧ localPlayers (handlePositionUpdate tracking_client far_update) !! "Alice"
    = Some {| PlayerID := "Alice"; X := 0.75; Y := 0;
              VelocityX := 0; VelocityY := 0; LastUpdateTime := 1000 |}
  ∧ handlePositionUpdate tracking_client infinite_update = tracking_client.
Proof.
  destruct (position_update_threshold tracking_client near_update alice_at_rest
              ltac:(vm_compute; reflexivity)) as [Hnear _].
  destruct (position_update_threshold tracking_client far_update alice_at_rest
              ltac:(vm_compute; reflexivity)) as [Hfar _].
  destruct (position_update_threshold tracking_client infinite_update
              alice_at_rest ltac:(vm_compute; reflexivity)) as [_ Hdropped].
  split; [|split].
  - apply Hnear; vm_compute; reflexivity.
  - destruct Hfar as [_ ->]; vm_compute; reflexivity.
  - apply Hdropped. vm_compute. reflexivity.
Defined.

(** C6 as stated fails: an update that puts the tracked Alice at x = +Inf
    is at an infinite distance, above 0.5, from her predicted position
    (0, 0), and yet the client keeps her state, x = 0 included: the update
    does not decode. *)
Lemma position_update_infinite_is_dropped :
  let predicted :=
    fst (predictPosition (upd_GameTime infinite_update) alice_at_rest) in
  let errorX := upd_X infinite_update - fst predicted in
  let errorY := upd_Y infinite_update - snd predicted in
  let distance := Float64.Sqrt (errorX * errorX + errorY * errorY) in
  localPlayers tracking_client !! "Alice" = Some alice_at_rest
  ∧ (0.5 <? distance) = true
  ∧ localPlayers (handlePositionUpdate tracking_client infinite_update) !! "Alice"
    = Some alice_at_rest
  ∧ handlePositionUpdate tracking_client infinite_update
    ≠ with_localPlayers tracking_client
        (<["Alice" :=
             {| PlayerID := "Alice";
                X := upd_X infinite_update;
                Y := upd_Y infinite_update;
                VelocityX := 0;
                VelocityY := 0;
                LastUpdateTime := upd_GameTime infinite_update |}]>
           (localPlayers tracking_client)).
Proof.
  cbv zeta. split; [vm_compute; reflexivity|].
  split; [vm_compute; reflexivity|]. split; [vm_compute; reflexivity|].
  intros Hsnap.
  apply (f_equal (fun c => (fun st => is_infinity (X st))
                           <$> localPlayers c !! "Alice")) in Hsnap.
  vm_compute in Hsnap. discriminate.
Qed.

(** C7 (as the code has it).  A move command for a tracked player, with a
    direction vector of finite components: the handler first moves the
    position to the command's game time under the old velocity and sets
    the checkpoint to that time, then overwrites the velocity with the
    direction times [moveSpeed].  When the new velocity is finite and the
    advanced position is not a NaN, the prediction at the new checkpoint is
    equal ([==]) to the advanced position.  A command whose direction has
    a NaN or an infinity does not decode and the client is left as it
    was. *)
Theorem move_command_advances_then_sets_velocity (c : GameClient)
    (m : MoveData) (player : LocalPlayerState) :
  localPlayers c !! mv_PlayerID m = Some player →
  let advanced := snd (updatePlayerPosition (mv_GameTime m) player) in
  let moved :=
    {| PlayerID := PlayerID advanced;
       X := X advanced;
       Y := Y advanced;
       VelocityX := VectorX m * moveSpeed c;
       VelocityY := VectorY m * moveSpeed c;
       LastUpdateTime := LastUpdateTime advanced |} in
  advanced
  = {| PlayerID := PlayerID player;
       X := X player
            + VelocityX player
              * (Float64.of_int64
                   (Int64.sub (mv_GameTime m) (LastUpdateTime player)) / 1000);
       Y := Y player
            + VelocityY player
              * (Float64.of_int64
                   (Int64.sub (mv_GameTime m) (LastUpdateTime player)) / 1000);
       VelocityX := VelocityX player;
       VelocityY := VelocityY player;
       LastUpdateTime := mv_GameTime m |}
  ∧ (is_finite (VectorX m) = true → is_finite (VectorY m) = true →
     handleMoveCommand c m
     = with_localPlayers c (<[mv_PlayerID m := moved]> (localPlayers c)))
  ∧ (is_finite (VectorX m) && is_finite (VectorY m) = false →
     handleMoveCommand c m = c)
  ∧ (is_finite (VelocityX moved) = true →
     is_finite (VelocityY moved) = true →
     is_nan (X advanced) = false →
     is_nan (Y advanced) = false →
     (fst (fst (predictPosition (mv_GameTime m) moved)) =? X advanced) = true
     ∧ (snd (fst (predictPosition (mv_GameTime m) moved)) =? Y advanced) = true).
Proof.
  intros Hplayer advanced moved. split; [reflexivity|]. split; [|split].
  - intros Hx Hy. unfold handleMoveCommand, parseData.
    rewrite round_trip_supported by (rewrite supported_MoveData, Hx, Hy; done).
    rewrite Hplayer. reflexivity.
  - intros Hxy. unfold handleMoveCommand, parseData.
    by rewrite round_trip_unsupported.
  - intros Hvx Hvy Hx Hy. subst moved. run_on_player.
    cbn [X Y VelocityX VelocityY LastUpdateTime] in *.
    change (LastUpdateTime advanced) with (mv_GameTime m).
    rewrite zero_elapsed. split; by apply add_mul_zero.
Qed.

Lemma move_command_advances_then_sets_velocity_witness :
  localPlayers (handleMoveCommand tracking_client alice_move) !! "Alice"
  = Some {| PlayerID := "Alice"; X := 0; Y := 0;
            VelocityX := 10; VelocityY := 0; LastUpdateTime := 1000 |}
  ∧ fst (predictPosition 1000
           {| PlayerID := "Alice"; X := 0; Y := 0;
              VelocityX := 10; VelocityY := 0; LastUpdateTime := 1000 |})
    = (0, 0)
  ∧ handleMoveCommand tracking_client nan_move = tracking_client.
Proof.
  destruct (move_command_advances_then_sets_velocity tracking_client alice_move
              alice_at_rest ltac:(vm_compute; reflexivity))
    as (_ & Hhandled & _ & Hcontinuous).
  destruct (move_command_advances_then_sets_velocity tracking_client nan_move
              alice_at_rest ltac:(vm_compute; reflexivity))
    as (_ & _ & Hdropped & _).
  split; [|split].
  - rewrite Hhandled by (vm_compute; reflexivity). vm_compute. reflexivity.
  - destruct Hcontinuous as [_ _]; vm_compute; reflexivity.
  - apply Hdropped. vm_compute. reflexivity.
Defined.

(** C7 as stated fails: the direction 1e308 times the speed 10 is not a
    finite [float64], and then the prediction at the new checkpoint is a
    NaN, not the advanced position (0, 0). *)
Lemma move_command_overflow_breaks_continuity :
  ∃ moved,
    localPlayers tracking_client !! "Alice" = Some alice_at_rest
    ∧ snd (updatePlayerPosition 1000 alice_at_rest)
      = {| PlayerID := "Alice"; X := 0; Y := 0;
           VelocityX := 0; VelocityY := 0; LastUpdateTime := 1000 |}
    ∧ localPlayers (handleMoveCommand tracking_client huge_move) !! "Alice"
      = Some moved
    ∧ LastUpdateTime moved = 1000%Z
    ∧ X moved = 0 ∧ Y moved = 0
    ∧ VelocityX moved = infinity
    ∧ fst (predictPosition 1000 moved) = (nan, 0)
    ∧ (fst (fst (predictPosition 1000 moved)) =? X moved) = false.
Proof.
  eexists. split; [vm_compute; reflexivity|]. split; [vm_compute; reflexivity|].
  split; [vm_compute; reflexivity|]. vm_compute. done.
Qed.

(** The observer moves Alice in direction (1, 0) at game time 0, at 10 units
    per second: she is predicted at (20, 0) at game time 2000. *)
Example prediction_two_seconds_after_move :
  ∃ st,
    localPlayers
      (handleMoveCommand tracking_client
         {| mv_PlayerID := "Alice"; VectorX := 1; VectorY := 0; mv_GameTime := 0 |})
    !! "Alice" = Some st
    ∧ fst (predictPosition 2000 st) = (20, 0).
Proof. eexists. split; [vm_compute; reflexivity|]. vm_compute. reflexivity. Qed.

(** A game time before the checkpoint extrapolates backwards. *)
Example prediction_before_checkpoint :
  fst (predictPosition 500
         {| PlayerID := "Alice"; X := 0; Y := 0;
            VelocityX := 10; VelocityY := 0; LastUpdateTime := 1000 |})
  = (-5, 0).
Proof. vm_compute. reflexivity. Qed.

End observer_claims.

(** ** The report window: claims *)

Section window_claims.
Import protocol server spec examples.

(** Storing one report writes the slot of its player and of the reporting
    client, and no other slot. *)
Lemma store_report_at (clientID : string)
    (reports : gmap string (gmap string PositionData)) (pos : PositionData)
    (entity observer : string) :
  report_at (store_report clientID reports pos) entity observer
  = if decide (PlayerID pos = entity ∧ observer = clientID)
    then Some pos
    else report_at reports entity observer.
Proof.
  unfold report_at, store_report.
  destruct (decide (PlayerID pos = entity)) as [<-|Hne].
  - rewrite lookup_insert_eq.
    destruct (decide (observer = clientID)) as [->|Hobs].
    + rewrite lookup_insert_eq. by rewrite decide_True.
    + rewrite lookup_insert_ne by done.
      case_decide as Hd; [by destruct Hd|].
      by destruct (reports !! PlayerID pos).
  - rewrite lookup_insert_ne by done.
    case_decide as Hd; [by destruct Hd | done].
Qed.

Lemma fold_store_report_at (clientID : string) (batch : list PositionData) :
  ∀ (reports : gmap string (gmap string PositionData)) (entity observer : string),
    report_at (fold_left (store_report clientID) batch reports) entity observer
    = if decide (observer = clientID)
      then match latest_for entity batch with
           | Some p => Some p
           | None => report_at reports entity observer
           end
      else report_at reports entity observer.
Proof.
  induction batch as [|p batch IH]; intros reports entity observer; simpl.
  - by destruct (decide (observer = clientID)).
  - rewrite IH, store_report_at.
    destruct (decide (observer = clientID)) as [->|Hobs].
    + destruct (latest_for entity batch); [done|].
      destruct (decide (PlayerID p = entity)).
      * by rewrite decide_True.
      * case_decide as Hd; [by destruct Hd | done].
    + case_decide as Hd; [by destruct Hd | done].
Qed.



End window_claims.


(** * Further properties *)

(** ** The arbitrator: shape of the clusters *)

Section cluster_shape.
Import protocol gamesync spec.
Local Open Scope nat_scope.

Variable pa : PositionArbitrator.

Lemma filter_all_pass (f : PositionData → bool) (l : list PositionData) :
  Forall (fun q => f q = true) (List.filter f l).
Proof.
  induction l as [|x l IH]; simpl; [constructor|].
  destruct (f x) eqn:Hx; [by constructor | done].
Qed.

Lemma filter_keeps_all (f : PositionData → bool) (l : list PositionData) :
  Forall (fun q => f q = true) l → List.filter f l = l.
Proof.
  induction 1 as [|x l Hx _ IH]; simpl; [done|]. by rewrite Hx, IH.
Qed.

Lemma filter_drops_all (f : PositionData → bool) (l : list PositionData) :
  Forall (fun q => f q = true) l → List.filter (fun q => negb (f q)) l = [].
Proof.
  induction 1 as [|x l Hx _ IH]; simpl; [done|]. by rewrite Hx.
Qed.

Lemma filter_elem_of (f : PositionData → bool) (l : list PositionData) q :
  q ∈ List.filter f l → q ∈ l.
Proof. rewrite !list_elem_of_In, filter_In. tauto. Qed.

(** A cluster is its seed followed by reports similar to the seed. *)
Lemma seed_clusters_upto_members fuel :
  ∀ (l : list PositionData) c,
    c ∈ seed_clusters_upto pa fuel l →
    ∃ seed members,
      c = seed :: members
      ∧ Forall (fun q => isSimilar pa seed q = true) members.
Proof.
  induction fuel as [|fuel IH]; intros [|seed rest] c Hc; simpl in Hc;
    try by apply elem_of_nil in Hc.
  apply elem_of_cons in Hc as [->|Hc].
  - eexists _, _. split; [done|]. apply filter_all_pass.
  - by apply IH in Hc.
Qed.

(** The members of the clusters are reports of the input. *)
Lemma seed_clusters_upto_elem_of fuel :
  ∀ (l : list PositionData) c q,
    c ∈ seed_clusters_upto pa fuel l → q ∈ c → q ∈ l.
Proof.
  induction fuel as [|fuel IH]; intros [|seed rest] c q Hc Hq; simpl in Hc;
    try by apply elem_of_nil in Hc.
  apply elem_of_cons in Hc as [->|Hc].
  - apply elem_of_cons in Hq as [->|Hq]; [by left|].
    right. by apply filter_elem_of in Hq.
  - right. eapply filter_elem_of, IH; done.
Qed.

(** No member of a later cluster is similar to the seed of an earlier one. *)
Lemma seed_clusters_upto_apart fuel :
  ∀ (l : list PositionData) i j ci cj seed,
    i < j →
    seed_clusters_upto pa fuel l !! i = Some ci →
    head ci = Some seed →
    seed_clusters_upto pa fuel l !! j = Some cj →
    Forall (fun q => isSimilar pa seed q = false) cj.
Proof.
  induction fuel as [|fuel IH]; intros [|s rest] i j ci cj seed Hij Hi Hs Hj;
    simpl in Hi, Hj; try done.
  destruct j as [|j]; [lia|]. simpl in Hj.
  destruct i as [|i]; simpl in Hi.
  - injection Hi as <-. simpl in Hs. injection Hs as <-.
    apply Forall_forall. intros q Hq.
    apply list_elem_of_lookup_2 in Hj.
    pose proof (seed_clusters_upto_elem_of _ _ _ _ Hj Hq) as Hin.
    apply list_elem_of_In, filter_In in Hin as [_ Hin].
    by apply negb_true_iff in Hin.
  - eapply (IH _ i j ci cj seed); [lia | done..].
Qed.

End cluster_shape.

(** ** The arbitrator: what the vote guarantees *)

Section vote.
Import protocol gamesync spec examples.
Local Open Scope nat_scope.

Lemma cluster_fits (cs : list (list PositionData)) :
  ∀ i c, cs !! i = Some c → length c ≤ length (concat cs).
Proof.
  induction cs as [|c0 cs IH]; intros [|i] c Hc; simpl in *; try done;
    rewrite length_app.
  - injection Hc as <-. lia.
  - apply IH in Hc. lia.
Qed.

Lemma two_clusters_fit (cs : list (list PositionData)) :
  ∀ i j ci cj,
    i ≠ j → cs !! i = Some ci → cs !! j = Some cj →
    length ci + length cj ≤ length (concat cs).
Proof.
  induction cs as [|c0 cs IH]; intros [|i] [|j] ci cj Hij Hi Hj; simpl in *;
    try done; rewrite length_app.
  - injection Hi as <-. apply cluster_fits in Hj. lia.
  - injection Hj as <-. apply cluster_fits in Hi. lia.
  - pose proof (IH i j ci cj ltac:(lia) Hi Hj). lia.
Qed.

(** On two or more reports, the cluster that is averaged. *)
Lemma arbitrate_winner (pa : PositionArbitrator)
    (p1 p2 : PositionData) (rest : list PositionData) :
  ∃ k winner,
    seed_clusters pa (p1 :: p2 :: rest) !! k = Some winner
    ∧ Arbitrate pa (p1 :: p2 :: rest) = Returned (averagePosition pa winner)
    ∧ (∀ c, c ∈ seed_clusters pa (p1 :: p2 :: rest) →
          length c ≤ length winner).
Proof.
  unfold Arbitrate. rewrite clusterPositions_seed_clusters.
  rewrite seed_clusters_cons.
  set (c0 := p1 :: List.filter (fun q => isSimilar pa p1 q) (p2 :: rest)).
  set (cs := seed_clusters pa _).
  destruct (max_step_first_largest c0 cs) as (k & Hk & Hall & _).
  by exists k, (fold_left max_step (c0 :: cs) c0).
Qed.

(** X1.  Every cluster that [clusterPositions] returns is a seed followed
    by reports that are all similar to the seed, and no report of a later
    cluster is similar to the seed of an earlier cluster. *)
Theorem clusters_are_seed_neighbourhoods (pa : PositionArbitrator)
    (positions : list PositionData) :
  ∃ clusters,
    clusterPositions pa positions = Returned clusters
    ∧ Forall (fun c => ∃ seed members,
                c = seed :: members
                ∧ Forall (fun q => isSimilar pa seed q = true) members)
        clusters
    ∧ ∀ i j ci cj seed,
        i < j → clusters !! i = Some ci → head ci = Some seed →
        clusters !! j = Some cj →
        Forall (fun q => isSimilar pa seed q = false) cj.
Proof.
  exists (seed_clusters pa positions).
  split; [apply clusterPositions_seed_clusters|]. split.
  - apply Forall_forall. intros c Hc.
    by apply seed_clusters_upto_members in Hc.
  - intros i j ci cj seed. apply seed_clusters_upto_apart.
Qed.

(** X2.  A cluster that holds more than half of the reports is the one
    whose mean [Arbitrate] returns. *)
Theorem majority_cluster_wins (pa : PositionArbitrator)
    (p1 p2 : PositionData) (rest : list PositionData)
    (clusters : list (list PositionData)) (c : list PositionData) :
  clusterPositions pa (p1 :: p2 :: rest) = Returned clusters →
  c ∈ clusters →
  length (p1 :: p2 :: rest) < 2 * length c →
  Arbitrate pa (p1 :: p2 :: rest) = Returned (averagePosition pa c).
Proof.
  rewrite clusterPositions_seed_clusters. intros [= <-] Hc Hmajor.
  destruct (arbitrate_winner pa p1 p2 rest) as (k & w & Hk & -> & Hall).
  apply list_elem_of_lookup_1 in Hc as [j Hj].
  destruct (decide (j = k)) as [->|Hjk]; [congruence|].
  pose proof (two_clusters_fit _ _ _ _ _ Hjk Hj Hk) as Hfit.
  unfold seed_clusters in Hfit.
  rewrite (seed_clusters_upto_perm pa (length (p1 :: p2 :: rest))) in Hfit by done.
  pose proof (Hall c ltac:(by eapply list_elem_of_lookup_2)). lia.
Qed.

Lemma majority_cluster_wins_witness :
  Arbitrate arbitrator
    [report "Alice" 0 0 0%Z; report "Alice" 0 0.9 0%Z; report "Alice" 0 1.8 0%Z]
  = Returned (averagePosition arbitrator
                [report "Alice" 0 0 0%Z; report "Alice" 0 0.9 0%Z]).
Proof.
  apply (majority_cluster_wins arbitrator _ _ _
           [[report "Alice" 0 0 0%Z; report "Alice" 0 0.9 0%Z];
            [report "Alice" 0 1.8 0%Z]]).
  - vm_compute. reflexivity.
  - by left.
  - simpl. lia.
Defined.

(** X3.  When every later report is similar to the first one, there is one
    cluster, the whole input in its order, and [Arbitrate] returns the mean
    of all the reports. *)
Theorem unanimous_reports_are_averaged (pa : PositionArbitrator)
    (p1 p2 : PositionData) (rest : list PositionData) :
  Forall (fun q => isSimilar pa p1 q = true) (p2 :: rest) →
  clusterPositions pa (p1 :: p2 :: rest) = Returned [p1 :: p2 :: rest]
  ∧ Arbitrate pa (p1 :: p2 :: rest)
    = Returned (averagePosition pa (p1 :: p2 :: rest)).
Proof.
  intros Hall.
  assert (seed_clusters pa (p1 :: p2 :: rest) = [p1 :: p2 :: rest]) as Hcs.
  { rewrite seed_clusters_cons.
    rewrite (filter_keeps_all (fun q => isSimilar pa p1 q)) by done.
    by rewrite (filter_drops_all (fun q => isSimilar pa p1 q)). }
  split.
  - by rewrite clusterPositions_seed_clusters, Hcs.
  - unfold Arbitrate. rewrite clusterPositions_seed_clusters, Hcs.
    cbn [fold_left]. unfold max_step. by rewrite Nat.ltb_irrefl.
Qed.

Lemma unanimous_reports_are_averaged_witness :
  clusterPositions arbitrator
    [report "Alice" 0 0 0%Z; report "Alice" 0 0.9 0%Z]
  = Returned [[report "Alice" 0 0 0%Z; report "Alice" 0 0.9 0%Z]]
  ∧ Arbitrate arbitrator [report "Alice" 0 0 0%Z; report "Alice" 0 0.9 0%Z]
    = Returned (averagePosition arbitrator
                  [report "Alice" 0 0 0%Z; report "Alice" 0 0.9 0%Z]).
Proof.
  apply (unanimous_reports_are_averaged arbitrator).
  constructor; [vm_compute; reflexivity | constructor].
Defined.

Lemma arbitrate_total (pa : PositionArbitrator) (l : list PositionData) :
  ∃ o, Arbitrate pa l = Returned o.
Proof.
  destruct l as [|p [|p2 rest]]; [by eexists..|].
  destruct (arbitrate_nonempty_winner pa p p2 rest) as (w & ws & _ & ->).
  by eexists.
Qed.

Lemma arbitrate_same_id (pa : PositionArbitrator) (l : list PositionData)
    (id : string) :
  l ≠ [] → (∀ q, q ∈ l → PlayerID q = id) →
  ∃ r, Arbitrate pa l = Returned (Some r) ∧ PlayerID r = id.
Proof.
  intros Hne Hid. destruct l as [|p [|p2 rest]]; [done| |].
  - exists p. split; [done|]. apply Hid. by left.
  - destruct (arbitrate_nonempty_winner pa p p2 rest) as (w & ws & Hin & ->).
    rewrite averagePosition_cons. eexists. split; [done|]. simpl.
    apply Hid.
    eapply (seed_clusters_upto_elem_of pa); [exact Hin | by left].
Qed.

(** X4.  When all the reports bear one player id, the report that
    [Arbitrate] returns bears it too. *)
Theorem arbitrate_keeps_player_id (pa : PositionArbitrator)
    (p : PositionData) (rest : list PositionData) (id : string) :
  Forall (fun q => PlayerID q = id) (p :: rest) →
  ∃ r, Arbitrate pa (p :: rest) = Returned (Some r) ∧ PlayerID r = id.
Proof.
  intros Hid. apply arbitrate_same_id; [done|].
  by apply Forall_forall.
Qed.

Lemma arbitrate_keeps_player_id_witness :
  ∃ r, Arbitrate arbitrator
         [report "Alice" 0 0 0%Z; report "Alice" 0 0.9 0%Z; report "Alice" 0 1.8 0%Z]
       = Returned (Some r)
       ∧ PlayerID r = "Alice".
Proof.
  apply (arbitrate_keeps_player_id arbitrator). repeat constructor.
Defined.

End vote.

(** ** The arbitrator: the game time of the result *)

Section result_time.
Import protocol gamesync spec examples.

Lemma zsum_bounds (lo hi : Z) (ts : list Z) :
  Forall (fun t => lo <= t <= hi) ts →
  Z.of_nat (length ts) * lo <= zsum ts <= Z.of_nat (length ts) * hi.
Proof.
  induction 1 as [|t ts Ht _ IH]; [simpl; lia|].
  cbn [length zsum fold_right]. fold (zsum ts). lia.
Qed.

Lemma quot_between (s n lo hi : Z) :
  0 < n → n * lo <= s <= n * hi → lo <= Z.quot s n <= hi.
Proof.
  intros Hn Hs.
  pose proof (Z.quot_rem' s n) as Hq.
  pose proof (Z.rem_bound_abs s n ltac:(lia)) as Hr.
  split; nia.
Qed.

(** X5.  When the sum of the members' game times fits in an [int64], the
    game time of the mean lies between the earliest and the latest game
    time of the members. *)
Theorem average_time_between_members (pa : PositionArbitrator)
    (w : PositionData) (ws : list PositionData) (lo hi : Z) :
  Forall (fun q => lo <= GameTime q <= hi) (w :: ws) →
  Int64.in_range (zsum (map GameTime (w :: ws))) →
  ∃ r, averagePosition pa (w :: ws) = Some r ∧ lo <= GameTime r <= hi.
Proof.
  intros Hall Hfit. rewrite averagePosition_cons. eexists. split; [done|].
  cbn [GameTime]. rewrite wrap_in_range by done.
  apply quot_between; [cbn [length]; lia|].
  rewrite <- (length_map GameTime). apply zsum_bounds.
  by apply Forall_map.
Qed.

Lemma average_time_between_members_witness :
  ∃ r, averagePosition arbitrator
         [report "Alice" 0 0 1000; report "Alice" 0 0.9 1003]
       = Some r
       ∧ 1000 <= GameTime r <= 1003.
Proof.
  apply (average_time_between_members arbitrator _ _ 1000 1003).
  - repeat constructor; simpl; lia.
  - vm_compute. split; [discriminate | reflexivity].
Defined.

End result_time.

(** ** More facts about binary64 *)

Section float64_zero_facts.
Import props.
Local Open Scope float_scope.

Lemma sub_self_zero_or_nan (x : float) : zero_or_nan (x - x).
Proof.
  unfold zero_or_nan. rewrite FloatAxioms.sub_spec.
  destruct (Prim2SF x) as [s|s| |s m e]; cbn [SF64sub SFsub].
  - left. destruct s; eauto.
  - right. by destruct s.
  - by right.
  - left. rewrite Z.sub_diag. cbn. eauto.
Qed.

(** The error of a prediction over zero elapsed time against the position
    it starts from. *)
Lemma sub_add_mul_zero (x v : float) : zero_or_nan (x - (x + v * 0)).
Proof.
  unfold zero_or_nan.
  rewrite FloatAxioms.sub_spec, FloatAxioms.add_spec, FloatAxioms.mul_spec.
  change (Prim2SF 0) with (S754_zero false).
  destruct (Prim2SF v) as [sv|sv| |sv mv ev];
    destruct (Prim2SF x) as [s|s| |s m e];
    cbn [SF64mul SFmul SF64add SFadd SF64sub SFsub xorb];
    try (by right);
    try (left; destruct sv, s; cbn; eauto; fail);
    try (right; destruct s; reflexivity).
  - left. rewrite Z.sub_diag. cbn. eauto.
  - left. rewrite Z.sub_diag. cbn. eauto.
Qed.

Lemma mul_zero_or_nan (a b : float) :
  zero_or_nan a → zero_or_nan b → zero_or_nan (a * b).
Proof.
  unfold zero_or_nan. rewrite FloatAxioms.mul_spec.
  intros [[sa ->]| ->] [[sb ->]| ->]; cbn; eauto.
Qed.

Lemma add_zero_or_nan (a b : float) :
  zero_or_nan a → zero_or_nan b → zero_or_nan (a + b).
Proof.
  unfold zero_or_nan. rewrite FloatAxioms.add_spec.
  intros [[sa ->]| ->] [[sb ->]| ->]; cbn; eauto.
  left. destruct sa, sb; eauto.
Qed.

Lemma sqrt_zero_or_nan (a : float) :
  zero_or_nan a → zero_or_nan (Float64.Sqrt a).
Proof.
  unfold zero_or_nan, Float64.Sqrt. rewrite FloatAxioms.sqrt_spec.
  intros [[sa ->]| ->]; cbn; eauto.
Qed.

Lemma half_not_below_zero_or_nan (d : float) :
  zero_or_nan d → (0.5 <? d) = false.
Proof.
  unfold zero_or_nan. rewrite FloatAxioms.ltb_spec.
  intros [[s ->]| ->]; reflexivity.
Qed.

(** The distance the client computes from two errors that are zeros or
    NaNs does not exceed the correction threshold. *)
Lemma no_correction (ex ey : float) :
  zero_or_nan ex → zero_or_nan ey →
  (0.5 <? Float64.Sqrt (ex * ex + ey * ey)) = false.
Proof.
  intros Hx Hy. apply half_not_below_zero_or_nan, sqrt_zero_or_nan.
  apply add_zero_or_nan; by apply mul_zero_or_nan.
Qed.

End float64_zero_facts.

(** ** The observer: roster, frame and stability *)

Section observer_roster.
Import protocol client spec props examples.
Local Open Scope float_scope.

Ltac step_on_player :=
  cbv beta iota zeta delta
    [mbind mret on_player_bind on_player_ret read write_X write_Y
     write_VelocityX write_VelocityY write_LastUpdateTime
     updatePlayerPosition predictPosition fst snd].

Lemma fold_welcome_lookup (positions : list PositionData) :
  ∀ (players : gmap string LocalPlayerState) (id : string),
    fold_left welcome_player positions players !! id
    = match latest_for id positions with
      | Some pos =>
          Some {| client.PlayerID := protocol.PlayerID pos;
                  client.X := protocol.X pos;
                  client.Y := protocol.Y pos;
                  VelocityX := 0;
                  VelocityY := 0;
                  LastUpdateTime := GameTime pos |}
      | None => players !! id
      end.
Proof.
  induction positions as [|p positions IH]; intros players id; simpl; [done|].
  rewrite IH. destruct (latest_for id positions); [done|].
  unfold welcome_player. destruct (decide (protocol.PlayerID p = id)) as [<-|Hne].
  - by rewrite lookup_insert_eq.
  - by rewrite lookup_insert_ne.
Qed.



Lemma keyed_insert (players : gmap string LocalPlayerState) id st :
  keyed_by_id players → client.PlayerID st = id →
  keyed_by_id (<[id := st]> players).
Proof. intros Hk Hst. by apply map_Forall_insert_2. Qed.

Lemma fold_welcome_keyed (positions : list PositionData) :
  ∀ players, keyed_by_id players →
    keyed_by_id (fold_left welcome_player positions players).
Proof.
  induction positions as [|p positions IH]; intros players Hk; simpl; [done|].
  apply IH. by apply keyed_insert.
Qed.

(** X8.  Every state is stored under the player id it bears: this holds of
    a new client and each handler keeps it. *)
Theorem handlers_keep_states_keyed_by_id (c : GameClient) :
  keyed_by_id (localPlayers c) →
  (∀ w, keyed_by_id (localPlayers (handleWelcome c w)))
  ∧ (∀ now j, keyed_by_id (localPlayers (handlePlayerJoined c now j)))
  ∧ (∀ m, keyed_by_id (localPlayers (handleMoveCommand c m)))
  ∧ (∀ u, keyed_by_id (localPlayers (handlePositionUpdate c u))).
Proof.
  intros Hk. repeat split.
  - intros w. unfold handleWelcome, parseData, json.round_trip.
    destruct (json.supported w); [|done]. by apply fold_welcome_keyed.
  - intros now j. unfold handlePlayerJoined, parseData, json.round_trip.
    destruct (json.supported j); [|done].
    destruct (localPlayers c !! joined_PlayerID j); [done|].
    by apply keyed_insert.
  - intros m. unfold handleMoveCommand, parseData, json.round_trip.
    destruct (json.supported m); [|done].
    destruct (localPlayers c !! mv_PlayerID m) as [st|] eqn:Hst; [|done].
    apply keyed_insert; [done|]. by apply (Hk _ _ Hst).
  - intros u. unfold handlePositionUpdate, parseData, json.round_trip.
    destruct (json.supported u); [|done].
    destruct (localPlayers c !! upd_PlayerID u) as [st|] eqn:Hst; [|done].
    apply keyed_insert; [done|]. step_on_player.
    destruct (0.5 <? _); by apply (Hk _ _ Hst).
Qed.

Lemma handlers_keep_states_keyed_by_id_witness :
  keyed_by_id (localPlayers (NewGameClient "client_1" "Bob"))
  ∧ keyed_by_id
      (localPlayers
         (handleMoveCommand
            (handlePlayerJoined (NewGameClient "client_1" "Bob") 0
               {| joined_PlayerID := "Alice" |})
            alice_move)).
Proof.
  assert (keyed_by_id (localPlayers (NewGameClient "client_1" "Bob"))) as H0
    by apply map_Forall_empty.
  split; [exact H0|].
  apply handlers_keep_states_keyed_by_id.
  by apply (handlers_keep_states_keyed_by_id (NewGameClient "client_1" "Bob")).
Defined.


(** X10.  Delivering the same authoritative position twice is the same
    as delivering it once: after a correction the prediction at the
    update's game time is so close to the update that nothing is written
    again. *)
Theorem position_update_twice (c : GameClient) (u : PositionUpdateData) :
  handlePositionUpdate (handlePositionUpdate c u) u = handlePositionUpdate c u.
Proof.
  unfold handlePositionUpdate, parseData, json.round_trip.
  destruct (json.supported u); [|done].
  destruct (localPlayers c !! upd_PlayerID u) as [player|] eqn:Hplayer.
  - step_on_player.
    destruct (0.5 <? _) eqn:Hfar.
    + cbn [localPlayers with_localPlayers].
      rewrite lookup_insert_eq. step_on_player.
      cbn [client.X client.Y VelocityX VelocityY LastUpdateTime].
      rewrite zero_elapsed.
      rewrite no_correction by apply sub_add_mul_zero.
      rewrite insert_insert_eq. reflexivity.
    + rewrite insert_id by done. rewrite with_localPlayers_same.
      rewrite Hplayer. step_on_player.
      rewrite Hfar. rewrite insert_id by done. apply with_localPlayers_same.
  - by rewrite Hplayer.
Qed.

(** X11.  An authoritative position that is the client's own prediction
    for that player at that game time never changes the client. *)
Theorem own_prediction_is_accepted (c : GameClient) (id : string)
    (player : LocalPlayerState) (t : Z) :
  localPlayers c !! id = Some player →
  handlePositionUpdate c
    {| upd_PlayerID := id;
       upd_X := fst (fst (predictPosition t player));
       upd_Y := snd (fst (predictPosition t player));
       upd_GameTime := t |}
  = c.
Proof.
  intros Hplayer. unfold handlePositionUpdate, parseData, json.round_trip.
  destruct (json.supported _); [|done].
  cbn [upd_PlayerID upd_X upd_Y upd_GameTime]. rewrite Hplayer.
  step_on_player.
  rewrite no_correction by apply sub_self_zero_or_nan.
  rewrite insert_id by done. apply with_localPlayers_same.
Qed.

Lemma own_prediction_is_accepted_witness :
  handlePositionUpdate
    (handleMoveCommand tracking_client alice_move)
    {| upd_PlayerID := "Alice"; upd_X := 10; upd_Y := 0; upd_GameTime := 2000 |}
  = handleMoveCommand tracking_client alice_move.
Proof.
  apply (own_prediction_is_accepted
           (handleMoveCommand tracking_client alice_move) "Alice"
           {| client.PlayerID := "Alice"; client.X := 0; client.Y := 0;
              VelocityX := 10; VelocityY := 0; LastUpdateTime := 1000 |} 2000).
  vm_compute. reflexivity.
Defined.

(** X12.  [GetPlayerPosition] leaves the client as it is; for a tracked
    player it returns the prediction at the given game time, and for any
    other player (0, 0) and [false]. *)
Theorem get_player_position_reads (c : GameClient) (id : string) (t : Z) :
  fst (GetPlayerPosition c id t) = c
  ∧ snd (GetPlayerPosition c id t)
    = match localPlayers c !! id with
      | Some player =>
          (fst (fst (predictPosition t player)),
           snd (fst (predictPosition t player)), true)
      | None => (0, 0, false)
      end.
Proof.
  unfold GetPlayerPosition.
  destruct (localPlayers c !! id) as [player|] eqn:Hplayer; [|done].
  step_on_player. split; [|done].
  rewrite insert_id by done. apply with_localPlayers_same.
Qed.

Section reporting.
Variable range_order : ∀ A : Type, gmap string A → list (string * A).
Hypothesis range_order_ok : visits_each_entry_once range_order.

Lemma predict_all_same (players : gmap string LocalPlayerState) (t : Z) :
  (fun player => snd (predictPosition t player)) <$> players = players.
Proof. apply map_fmap_id. Qed.

(** X13.  A periodic report leaves the client as it is.  It is sent
    exactly when the client tracks a player; it then bears the game time given and
    holds, for every tracked player, one report: the player's id and the
    prediction at that game time.  When every state is stored under its
    own id, no two reports bear the same player id. *)
Theorem report_covers_every_player (c : GameClient) (t : Z) :
  fst (reportPositions range_order c t) = c
  ∧ match snd (reportPositions range_order c t) with
    | None => localPlayers c = ∅
    | Some batch =>
        localPlayers c ≠ ∅
        ∧ sync_GameTime batch = t
        ∧ Positions batch
          ≡ₚ map (fun entry => report_of t (snd entry))
               (map_to_list (localPlayers c))
        ∧ (keyed_by_id (localPlayers c) →
           NoDup (map protocol.PlayerID (Positions batch)))
    end.
Proof.
  unfold reportPositions. cbn [fst snd].
  rewrite predict_all_same, with_localPlayers_same. split; [done|].
  rewrite length_map.
  pose proof (range_order_ok _ (localPlayers c)) as Hperm.
  destruct (Nat.ltb_spec 0 (length (range_order _ (localPlayers c)))) as [Hpos|Hzero].
  - cbn [sync_GameTime Positions]. split.
    { intros Hempty. rewrite Hperm, Hempty, map_to_list_empty in Hpos.
      simpl in Hpos. lia. }
    split; [done|]. split.
    + by rewrite Hperm.
    + intros Hkeyed. rewrite Hperm.
      rewrite map_map.
      rewrite (map_ext_in _ fst).
      * apply NoDup_fst_map_to_list.
      * intros [id player] Hin%list_elem_of_In%elem_of_map_to_list.
        unfold report_of. step_on_player. cbn. by apply (Hkeyed _ _ Hin).
  - apply map_to_list_empty_iff. rewrite Hperm in Hzero.
    destruct (map_to_list (localPlayers c)); [done | simpl in Hzero; lia].
Qed.

End reporting.

Lemma report_covers_every_player_witness :
  fst (reportPositions listed_order tracking_client 1000) = tracking_client
  ∧ snd (reportPositions listed_order tracking_client 1000)
    = Some {| Positions := [report "Alice" 0 0 1000]; sync_GameTime := 1000 |}.
Proof.
  split.
  - apply (report_covers_every_player listed_order). intros A m. reflexivity.
  - vm_compute. reflexivity.
Defined.

End observer_roster.

(** ** The authority: the report window and the arbitration cycle *)

Section authority.
Import protocol gamesync server spec props examples.

Lemma store_report_window_ok (clientID : string)
    (reports : gmap string (gmap string PositionData)) (pos : PositionData) :
  window_ok reports → window_ok (store_report clientID reports pos).
Proof.
  intros Hok. unfold store_report. apply map_Forall_insert_2; [|done].
  split; [apply insert_non_empty|].
  apply map_Forall_insert_2; [done|].
  destruct (reports !! PlayerID pos) as [m|] eqn:Hm.
  - by apply (Hok _ _ Hm).
  - apply map_Forall_empty.
Qed.

Lemma fold_store_report_window_ok (clientID : string) (batch : list PositionData) :
  ∀ reports, window_ok reports →
    window_ok (fold_left (store_report clientID) batch reports).
Proof.
  induction batch as [|pos batch IH]; intros reports Hok; simpl; [done|].
  by apply IH, store_report_window_ok.
Qed.

(** X14.  The window only ever holds players that have a report, and every
    report under the player id it bears: a batch keeps it so, whatever the
    batch holds.  (The reports of one player all bear that player's id,
    which is what [Arbitrate] is handed.) *)
Theorem position_sync_keeps_window_ok (s : GameServer) (clientID : string)
    (syncData : PositionSyncData) :
  window_ok (positionReports s) →
  window_ok (positionReports (handlePositionSync s clientID syncData)).
Proof.
  intros Hok. unfold handlePositionSync, parseData, json.round_trip.
  destruct (json.supported syncData); [|done]. cbn [positionReports].
  by apply fold_store_report_window_ok.
Qed.

Lemma position_sync_keeps_window_ok_witness :
  window_ok
    (positionReports
       (handlePositionSync {| positionReports := ∅ |} "client_0"
          {| Positions := [report "Alice" 0 0 1000; report "Bob" 1 1 1000];
             sync_GameTime := 1000 |})).
Proof.
  apply (position_sync_keeps_window_ok {| positionReports := ∅ |}).
  apply map_Forall_empty.
Defined.

Section cycle.
Variable range_order : ∀ A : Type, gmap string A → list (string * A).
Hypothesis range_order_ok : visits_each_entry_once range_order.
Variable pa : PositionArbitrator.

Lemma range_order_keys (A : Type) (m : gmap string A) :
  NoDup (map fst (range_order A m)).
Proof. rewrite (range_order_ok A m). apply NoDup_fst_map_to_list. Qed.

Lemma range_order_lookup (A : Type) (m : gmap string A) :
  list_to_map (range_order A m) = m.
Proof.
  rewrite (list_to_map_proper _ (map_to_list m)).
  - apply list_to_map_to_list.
  - apply range_order_keys.
  - apply range_order_ok.
Qed.

Lemma arbitrate_player_spec (players : gmap string PlayerState)
    (calls : list transport_call) (e : string) (m : gmap string PositionData) :
  arbitrate_player range_order pa (players, calls) (e, m)
  = Returned
      match verdict range_order pa m with
      | Some r =>
          (match players !! e with
           | Some p => <[e := moved_to r p]> players
           | None => players
           end,
           calls ++ [position_update_call r])
      | None => (players, calls)
      end.
Proof.
  unfold arbitrate_player, verdict.
  destruct (arbitrate_total pa (map snd (range_order _ m))) as [o Ho].
  rewrite Ho. by destruct o.
Qed.

(** The loop of [performArbitration] over entries with distinct players. *)
Lemma arbitrate_all_spec (entries : list (string * gmap string PositionData)) :
  ∀ (players : gmap string PlayerState) (calls : list transport_call),
    NoDup (map fst entries) →
    ∃ players',
      arbitrate_all range_order pa entries (players, calls)
      = Returned
          (players',
           calls ++ omap (fun entry =>
                            position_update_call
                              <$> verdict range_order pa (snd entry)) entries)
      ∧ ∀ x, players' !! x
             = match players !! x with
               | Some p =>
                   Some match (list_to_map entries
                                 : gmap string (gmap string PositionData)) !! x
                              ≫= verdict range_order pa with
                        | Some r => moved_to r p
                        | None => p
                        end
               | None => None
               end.
Proof.
  induction entries as [|[e m] entries IH]; intros players calls Hnd.
  - exists players. simpl. rewrite app_nil_r. split; [done|].
    intros x. rewrite lookup_empty. by destruct (players !! x).
  - apply NoDup_cons in Hnd as [He Hnd]. cbn [arbitrate_all].
    rewrite arbitrate_player_spec.
    assert (∀ x, (list_to_map ((e, m) :: entries)
                    : gmap string (gmap string PositionData)) !! x
                 ≫= verdict range_order pa
                 = if decide (x = e) then verdict range_order pa m
                   else (list_to_map entries
                           : gmap string (gmap string PositionData)) !! x
                        ≫= verdict range_order pa) as Hcons.
    { intros x. cbn [list_to_map foldr fst snd curry].
      destruct (decide (x = e)) as [->|Hx].
      - by rewrite lookup_insert_eq.
      - by rewrite lookup_insert_ne. }
    assert ((list_to_map entries
               : gmap string (gmap string PositionData)) !! e = None) as Hfresh
      by by apply not_elem_of_list_to_map_1.
    destruct (verdict range_order pa m) as [r|] eqn:Hv.
    + destruct (IH (match players !! e with
                    | Some p => <[e := moved_to r p]> players
                    | None => players
                    end) (calls ++ [position_update_call r]) Hnd)
        as (players' & Hrun & Hlook).
      exists players'. split.
      * rewrite Hrun. cbn [omap list_omap snd]. rewrite Hv.
        cbn [fmap option_fmap option_map]. by rewrite <- app_assoc.
      * intros x. rewrite Hlook, Hcons.
        destruct (decide (x = e)) as [->|Hx].
        -- rewrite Hfresh. cbn [mbind option_bind].
           destruct (players !! e) as [p|] eqn:Hp.
           ++ by rewrite lookup_insert_eq.
           ++ by rewrite Hp.
        -- destruct (players !! e); [by rewrite lookup_insert_ne | done].
    + destruct (IH players calls Hnd) as (players' & Hrun & Hlook).
      exists players'. split.
      * rewrite Hrun. cbn [omap list_omap snd]. by rewrite Hv.
      * intros x. rewrite Hlook, Hcons.
        destruct (decide (x = e)) as [->|Hx]; [|done].
        rewrite Hfresh. done.
Qed.

(** X15.  One arbitration cycle.  The window is replaced by an empty one.
    For every player of the window taken whose reports give a verdict, in
    the order the window is ranged over, the verdict is broadcast to all
    clients; nothing else is sent.  The server's record of such a player
    moves to the verdict; no record is added or removed, and the other
    records are kept.  The cycle does not panic. *)
Theorem arbitration_cycle (s : GameServer) (players : gmap string PlayerState) :
  ∃ players' calls,
    performArbitration range_order pa s players
    = Returned ({| positionReports := ∅ |}, players', calls)
    ∧ calls
      = omap (fun entry =>
                position_update_call <$> verdict range_order pa (snd entry))
          (range_order _ (positionReports s))
    ∧ ∀ x, players' !! x
           = match players !! x with
             | Some p =>
                 Some match positionReports s !! x ≫= verdict range_order pa with
                      | Some r => moved_to r p
                      | None => p
                      end
             | None => None
             end.
Proof.
  unfold performArbitration.
  destruct (arbitrate_all_spec (range_order _ (positionReports s)) players []
              (range_order_keys _ _)) as (players' & Hrun & Hlook).
  rewrite Hrun. exists players'. eexists. split; [done|]. split; [done|].
  intros x. rewrite Hlook. by rewrite range_order_lookup.
Qed.

Lemma verdict_of_window_entry (e : string) (m : gmap string PositionData) :
  m ≠ ∅ → map_Forall (fun _ r => PlayerID r = e) m →
  ∃ r, verdict range_order pa m = Some r ∧ PlayerID r = e.
Proof.
  intros Hne Hid.
  destruct (arbitrate_same_id pa (map snd (range_order _ m)) e) as (r & Hr & Hre).
  - intros Hnil. apply Hne, map_to_list_empty_iff.
    apply Permutation_nil_r. rewrite <- (range_order_ok _ m).
    by destruct (range_order _ m).
  - intros q Hq. apply list_elem_of_fmap in Hq as ([o q'] & -> & Hin).
    rewrite (range_order_ok _ m) in Hin.
    apply elem_of_map_to_list in Hin. by apply (Hid _ _ Hin).
  - exists r. unfold verdict. by rewrite Hr.
Qed.

Lemma updates_name_their_players
    (entries : list (string * gmap string PositionData)) :
  Forall (fun entry => ∃ r, verdict range_order pa (snd entry) = Some r
                            ∧ PlayerID r = fst entry) entries →
  omap updated_player
    (omap (fun entry =>
             position_update_call <$> verdict range_order pa (snd entry))
       entries)
  = map fst entries.
Proof.
  induction 1 as [|[e m] entries (r & Hr & Hre) _ IH]; [done|].
  cbn [omap list_omap map fst snd] in *. rewrite Hr.
  cbn [fmap option_fmap option_map omap list_omap updated_player
       position_update_call transport.NewMessage transport.msg_Data
       upd_PlayerID].
  by rewrite IH, Hre.
Qed.

Lemma updates_count (entries : list (string * gmap string PositionData)) :
  Forall (fun entry => ∃ r, verdict range_order pa (snd entry) = Some r
                            ∧ PlayerID r = fst entry) entries →
  length (omap (fun entry =>
                  position_update_call <$> verdict range_order pa (snd entry))
            entries)
  = length entries.
Proof.
  induction 1 as [|[e m] entries (r & Hr & _) _ IH]; [done|].
  cbn [omap list_omap snd] in *. rewrite Hr.
  cbn [fmap option_fmap option_map length]. by rewrite IH.
Qed.

(** X16.  In a cycle over a window that batches have filled, every player
    of the window gets exactly one position update, bearing its own id. *)
Theorem every_reported_player_gets_one_update (s : GameServer)
    (players : gmap string PlayerState) :
  window_ok (positionReports s) →
  ∃ s' players' calls,
    performArbitration range_order pa s players = Returned (s', players', calls)
    ∧ omap updated_player calls ≡ₚ map fst (map_to_list (positionReports s))
    ∧ length calls = size (positionReports s).
Proof.
  intros Hok. unfold performArbitration.
  destruct (arbitrate_all_spec (range_order _ (positionReports s)) players []
              (range_order_keys _ _)) as (players' & Hrun & _).
  rewrite Hrun. eexists _, _, _. split; [done|]. cbn [app].
  assert (Forall (fun entry => ∃ r, verdict range_order pa (snd entry) = Some r
                                    ∧ PlayerID r = fst entry)
            (range_order _ (positionReports s))) as Hall.
  { apply Forall_forall. intros [e m] Hin.
    rewrite (range_order_ok _ (positionReports s)) in Hin.
    apply elem_of_map_to_list in Hin. destruct (Hok _ _ Hin) as [Hne Hid].
    by apply verdict_of_window_entry. }
  pose proof (updates_name_their_players _ Hall) as Hnames. split.
  - rewrite Hnames. by rewrite (range_order_ok _ (positionReports s)).
  - rewrite (updates_count _ Hall), <- length_map_to_list.
    by rewrite (range_order_ok _ (positionReports s)).
Qed.

End cycle.

End authority.

Section authority_cases.
Import protocol gamesync server spec props examples.

Lemma listed_order_ok : visits_each_entry_once listed_order.
Proof. intros A m. reflexivity. Qed.

Lemma reversed_order_ok : visits_each_entry_once reversed_order.
Proof. intros A m. apply reverse_Permutation. Qed.

Lemma every_reported_player_gets_one_update_witness :
  ∃ s' players' calls,
    performArbitration listed_order server_arbitrator
      {| positionReports := spread_window |} ∅
    = Returned (s', players', calls)
    ∧ omap updated_player calls ≡ₚ map fst (map_to_list spread_window)
    ∧ length calls = size spread_window.
Proof.
  apply (every_reported_player_gets_one_update listed_order listed_order_ok
           server_arbitrator {| positionReports := spread_window |} ∅).
  apply map_Forall_singleton. split; [done|].
  repeat (apply map_Forall_insert_2; [reflexivity|]). apply map_Forall_empty.
Defined.

Section single.
Variable range_order : ∀ A : Type, gmap string A → list (string * A).
Hypothesis range_order_ok : visits_each_entry_once range_order.
Variable pa : PositionArbitrator.

Lemma verdict_of_single_report (o : string) (r : PositionData) :
  verdict range_order pa {[o := r]} = Some r.
Proof.
  unfold verdict.
  assert (range_order _ ({[o := r]} : gmap string PositionData) = [(o, r)]) as ->.
  { apply Permutation_singleton_r.
    rewrite (range_order_ok _ _). by rewrite map_to_list_singleton. }
  done.
Qed.

(** X17.  A player whom a single client has reported in the window gets
    that report back as the verdict: it is broadcast as it stands, and the
    server's record of the player, if there is one, moves to it. *)
Theorem lone_report_is_the_verdict (s : GameServer)
    (players : gmap string PlayerState) (e o : string) (r : PositionData) :
  positionReports s !! e = Some {[o := r]} →
  ∃ s' players' calls,
    performArbitration range_order pa s players = Returned (s', players', calls)
    ∧ position_update_call r ∈ calls
    ∧ players' !! e = moved_to r <$> players !! e.
Proof.
  intros He. unfold performArbitration.
  destruct (arbitrate_all_spec range_order pa
              (range_order _ (positionReports s)) players []
              (range_order_keys range_order range_order_ok _ _))
    as (players' & Hrun & Hlook).
  rewrite Hrun. eexists _, _, _. split; [done|]. split.
  - cbn [app]. apply list_elem_of_omap. exists (e, {[o := r]}). split.
    + rewrite (range_order_ok _ (positionReports s)).
      by apply elem_of_map_to_list.
    + cbn [snd]. by rewrite verdict_of_single_report.
  - rewrite Hlook, (range_order_lookup range_order range_order_ok), He.
    cbn [mbind option_bind]. rewrite verdict_of_single_report.
    by destruct (players !! e).
Qed.

End single.

Lemma lone_report_is_the_verdict_witness :
  ∃ s' players' calls,
    performArbitration listed_order server_arbitrator
      {| positionReports := {[ "Alice" := {[ "client_0" := report "Alice" 3 4 1000 ]} ]} |}
      {[ "Alice" := {| ps_PlayerID := "Alice"; ps_X := 0; ps_Y := 0; LastSync := 0 |} ]}
    = Returned (s', players', calls)
    ∧ position_update_call (report "Alice" 3 4 1000) ∈ calls
    ∧ players' !! "Alice"
      = Some {| ps_PlayerID := "Alice"; ps_X := 3; ps_Y := 4; LastSync := 1000 |}.
Proof.
  destruct (lone_report_is_the_verdict listed_order listed_order_ok
              server_arbitrator
              {| positionReports :=
                   {[ "Alice" := {[ "client_0" := report "Alice" 3 4 1000 ]} ]} |}
              {[ "Alice" := {| ps_PlayerID := "Alice"; ps_X := 0; ps_Y := 0;
                               LastSync := 0 |} ]}
              "Alice" "client_0" (report "Alice" 3 4 1000))
    as (s' & players' & calls & Hrun & Hin & Hlook);
    [vm_compute; reflexivity|].
  exists s', players', calls. split; [exact Hrun|]. split; [exact Hin|].
  rewrite Hlook. vm_compute. reflexivity.
Defined.

(** X18.  The verdict depends on the order in which Go ranges over the
    reports of a player: for three clients that report Alice at (0, 0),
    (0, 0.9) and (0, 1.8), ranging over the clients in one order and in the
    reverse order broadcasts two different positions for her. *)
Theorem verdict_depends_on_range_order :
  visits_each_entry_once listed_order
  ∧ visits_each_entry_once reversed_order
  ∧ ∃ call1 call2 u1 u2,
      performArbitration listed_order server_arbitrator
        {| positionReports := spread_window |} ∅
      = Returned ({| positionReports := ∅ |}, ∅, [call1])
      ∧ performArbitration reversed_order server_arbitrator
          {| positionReports := spread_window |} ∅
        = Returned ({| positionReports := ∅ |}, ∅, [call2])
      ∧ update_of call1 = Some u1
      ∧ update_of call2 = Some u2
      ∧ upd_PlayerID u1 = "Alice" ∧ upd_PlayerID u2 = "Alice"
      ∧ (upd_Y u1 =? upd_Y u2)%float = false.
Proof.
  split; [apply listed_order_ok|]. split; [apply reversed_order_ok|].
  eexists _, _, _, _.
  split; [vm_compute; reflexivity|].
  split; [vm_compute; reflexivity|].
  split; [reflexivity|]. split; [reflexivity|].
  split; [reflexivity|]. split; [reflexivity|].
  vm_compute. reflexivity.
Qed.

End authority_cases.

Section joining.
Import protocol gamesync server spec props examples transport.

Lemma arbitration_cycle_witness :
  ∃ players' calls,
    performArbitration listed_order server_arbitrator
      {| positionReports := spread_window |} ∅
    = Returned ({| positionReports := ∅ |}, players', calls)
    ∧ calls
      = omap (fun entry =>
                position_update_call
                  <$> verdict listed_order server_arbitrator (snd entry))
          (listed_order _ spread_window)
    ∧ ∀ x, players' !! x
           = match (∅ : gmap string PlayerState) !! x with
             | Some p =>
                 Some match spread_window !! x
                            ≫= verdict listed_order server_arbitrator with
                      | Some r => moved_to r p
                      | None => p
                      end
             | None => None
             end.
Proof.
  apply (arbitration_cycle listed_order listed_order_ok server_arbitrator
           {| positionReports := spread_window |} ∅).
Defined.

Section roster.
Variable range_order : ∀ A : Type, gmap string A → list (string * A).
Hypothesis range_order_ok : visits_each_entry_once range_order.


End roster.


End joining.

(** ** The local transport *)

Section local_transport.
Import transport props.
Context {Message : Type}.
Implicit Types (t : LocalTransport Message) (ch : chan Message).
Local Open Scope nat_scope.

Lemma try_send_open {A : Type} (c : chan A) (a : A) :
  chan_ok false c →
  try_send c a
  = Returned
      (if length (chan_buf c) <? 100
       then Some {| chan_buf := chan_buf c ++ [a]; chan_cap := chan_cap c;
                    chan_closed := chan_closed c |}
       else None).
Proof.
  intros (Hcap & _ & Hopen). unfold try_send. rewrite Hopen, Hcap.
  by destruct (length (chan_buf c) <? 100).
Qed.

Lemma chan_ok_push {A : Type} (c : chan A) (a : A) :
  chan_ok false c → length (chan_buf c) < 100 →
  chan_ok false {| chan_buf := chan_buf c ++ [a]; chan_cap := chan_cap c;
                   chan_closed := chan_closed c |}.
Proof.
  intros (Hcap & Hlen & Hopen) Hroom. repeat split; cbn; try done.
  rewrite length_app. simpl. lia.
Qed.

Lemma broadcast_to_open (msg : Message) (excludeID id : string) ch :
  chan_ok false ch →
  broadcast_to msg excludeID id ch
  = Returned
      (if decide (id = excludeID) then ch
       else if length (chan_buf ch) <? 100
            then {| chan_buf := chan_buf ch ++ [msg]; chan_cap := chan_cap ch;
                    chan_closed := chan_closed ch |}
            else ch).
Proof.
  intros Hok. unfold broadcast_to. destruct (decide (id = excludeID)); [done|].
  rewrite try_send_open by done. by destruct (length (chan_buf ch) <? 100).
Qed.

Lemma broadcast_to_ok (msg : Message) (excludeID id : string) ch :
  chan_ok false ch →
  chan_ok false
    (if decide (id = excludeID) then ch
     else if length (chan_buf ch) <? 100
          then {| chan_buf := chan_buf ch ++ [msg]; chan_cap := chan_cap ch;
                  chan_closed := chan_closed ch |}
          else ch).
Proof.
  intros Hok. destruct (decide (id = excludeID)); [done|].
  destruct (Nat.ltb_spec (length (chan_buf ch)) 100); [|done].
  by apply chan_ok_push.
Qed.

(** On an open transport [Broadcast] does not panic; it appends the message
    to the queue of every registered client other than [excludeID] that has
    room, and changes nothing else. *)
Lemma Broadcast_open t (msg : Message) (excludeID : string) :
  transport_ok t → closed t = false →
  ∃ t', Broadcast t msg excludeID = Returned (t', None)
        ∧ transport_ok t'
        ∧ closed t' = false
        ∧ incoming t' = incoming t
        ∧ ∀ id, queue t' id
                = (fun q => if decide (id = excludeID) then q
                            else if length q <? 100 then q ++ [msg] else q)
                  <$> queue t id.
Proof.
  intros [Hchs Hinc] Hopen. rewrite Hopen in Hchs, Hinc.
  unfold Broadcast. rewrite Hopen.
  rewrite decide_True; last first.
  { intros id ch Hch. rewrite broadcast_to_open; [done|]. by apply (Hchs _ _ Hch). }
  eexists. split; [reflexivity|].
  split; [|split; [done|split; [done|]]].
  - split; cbn [channels incoming closed with_channels]; rewrite Hopen; [|done].
    intros id ch'. rewrite map_lookup_imap.
    destruct (channels t !! id) as [ch|] eqn:Hch; [|done].
    cbn [fmap option_fmap option_map mbind option_bind].
    rewrite broadcast_to_open by by apply (Hchs _ _ Hch).
    intros [= <-]. apply broadcast_to_ok. by apply (Hchs _ _ Hch).
  - intros id. unfold queue. cbn [channels with_channels].
    rewrite map_lookup_imap.
    destruct (channels t !! id) as [ch|] eqn:Hch; [|done].
    cbn [fmap option_fmap option_map mbind option_bind].
    rewrite broadcast_to_open by by apply (Hchs _ _ Hch).
    destruct (decide (id = excludeID)); [done|].
    by destruct (length (chan_buf ch) <? 100).
Qed.

(** On an open transport [Send] does not panic; it appends the message to
    the queue of a registered client that has room and fails otherwise. *)
Lemma Send_open t (clientID : string) (msg : Message) :
  transport_ok t → closed t = false →
  match queue t clientID with
  | None => Send t clientID msg = Returned (t, Some (ErrNotFound clientID))
  | Some q =>
      if length q <? 100 then
        ∃ t', Send t clientID msg = Returned (t', None)
              ∧ transport_ok t'
              ∧ closed t' = false
              ∧ incoming t' = incoming t
              ∧ queue t' clientID = Some (q ++ [msg])
              ∧ delete clientID (channels t') = delete clientID (channels t)
      else Send t clientID msg = Returned (t, Some (ErrChannelFull clientID))
  end.
Proof.
  intros [Hchs Hinc] Hopen. rewrite Hopen in Hchs, Hinc.
  unfold queue, Send. rewrite Hopen.
  destruct (channels t !! clientID) as [ch|] eqn:Hch; [|done].
    cbn [fmap option_fmap option_map mbind option_bind].
  rewrite try_send_open by by apply (Hchs _ _ Hch).
  destruct (Nat.ltb_spec (length (chan_buf ch)) 100) as [Hroom|Hfull]; [|done].
  eexists. split; [reflexivity|].
  split; [|split; [done|split; [done|split]]].
  - split; cbn [channels incoming closed with_channels]; rewrite Hopen; [|done].
    apply map_Forall_insert_2; [|done].
    apply chan_ok_push; [by apply (Hchs _ _ Hch) | done].
  - cbn [channels with_channels]. by rewrite lookup_insert_eq.
  - cbn [channels with_channels]. by rewrite delete_insert_eq.
Qed.

Lemma with_channels_same t : with_channels t (channels t) = t.
Proof. by destruct t. Qed.

Lemma Close_open t :
  transport_ok t → closed t = false →
  Close t
  = Returned
      ({| channels :=
            (fun ch => {| chan_buf := chan_buf ch; chan_cap := chan_cap ch;
                          chan_closed := true |}) <$> channels t;
          incoming := {| chan_buf := chan_buf (incoming t);
                         chan_cap := chan_cap (incoming t);
                         chan_closed := true |};
          closed := true |}, None).
Proof.
  intros [Hchs Hinc] Hopen. rewrite Hopen in Hchs, Hinc.
  unfold Close. rewrite Hopen. rewrite decide_True; last first.
  { intros id ch Hch. by destruct (Hchs _ _ Hch) as (_ & _ & ?). }
  unfold close_chan. by destruct Hinc as (_ & _ & ->).
Qed.

Lemma Close_ok t :
  transport_ok t → closed t = false →
  transport_ok
    {| channels :=
         (fun ch => {| chan_buf := chan_buf ch; chan_cap := chan_cap ch;
                       chan_closed := true |}) <$> channels t;
       incoming := {| chan_buf := chan_buf (incoming t);
                      chan_cap := chan_cap (incoming t);
                      chan_closed := true |};
       closed := true |}.
Proof.
  intros [Hchs Hinc] Hopen. rewrite Hopen in Hchs, Hinc.
  split; cbn [channels incoming closed].
  - intros id ch'. rewrite lookup_fmap.
    destruct (channels t !! id) as [ch|] eqn:Hch; [|done].
    intros [= <-]. destruct (Hchs _ _ Hch) as (? & ? & _). by repeat split.
  - destruct Hinc as (? & ? & _). by repeat split.
Qed.

Lemma SendToServer_open t (clientID : string) (msg : Message) :
  transport_ok t → closed t = false →
  SendToServer t clientID msg
  = Returned
      (if length (chan_buf (incoming t)) <? 100
       then ({| channels := channels t;
                incoming :=
                  {| chan_buf :=
                       chan_buf (incoming t)
                       ++ [{| sender_ClientID := clientID;
                              sender_Message := msg |}];
                     chan_cap := chan_cap (incoming t);
                     chan_closed := chan_closed (incoming t) |};
                closed := closed t |}, None)
       else (t, Some ErrIncomingFull)).
Proof.
  intros [_ Hinc] Hopen. rewrite Hopen in Hinc.
  unfold SendToServer. rewrite Hopen, try_send_open by done.
  by destruct (length (chan_buf (incoming t)) <? 100).
Qed.

(** X20.  While the transport is open none of its methods panics, and each
    leaves it in a state where every channel has capacity 100, holds at
    most 100 messages and is open, or, after [Close], is closed. *)
Theorem open_transport_never_panics t :
  transport_ok t → closed t = false →
  (∀ id, transport_ok (fst (Register t id)))
  ∧ (∀ id, ∃ t', Unregister t id = Returned (t', None) ∧ transport_ok t')
  ∧ (∀ id msg, ∃ r, Send t id msg = Returned r ∧ transport_ok (fst r))
  ∧ (∀ msg excludeID,
        ∃ r, Broadcast t msg excludeID = Returned r ∧ transport_ok (fst r))
  ∧ (∀ id msg, ∃ r, SendToServer t id msg = Returned r ∧ transport_ok (fst r))
  ∧ (∃ t', Close t = Returned (t', None) ∧ transport_ok t' ∧ closed t' = true).
Proof.
  intros Hok Hopen. pose proof Hok as [Hchs Hinc]. rewrite Hopen in Hchs, Hinc.
  split; [|split; [|split; [|split; [|split]]]].
  - intros id. unfold Register. rewrite Hopen.
    destruct (channels t !! id) eqn:Hid; [done|].
    split; cbn [fst channels incoming closed with_channels]; rewrite Hopen;
      [|done].
    apply map_Forall_insert_2; [|done]. repeat split; cbn; lia.
  - intros id. unfold Unregister.
    destruct (channels t !! id) as [ch|] eqn:Hch; [|by eexists].
    unfold close_chan. destruct (Hchs _ _ Hch) as (_ & _ & ->).
    eexists. split; [reflexivity|].
    split; cbn [channels incoming closed with_channels]; rewrite Hopen; [|done].
    by apply map_Forall_delete.
  - intros id msg. pose proof (Send_open t id msg Hok Hopen) as Hsend.
    destruct (queue t id) as [q|].
    + destruct (length q <? 100).
      * destruct Hsend as (t' & -> & Hok' & _). by eexists.
      * rewrite Hsend. by eexists.
    + rewrite Hsend. by eexists.
  - intros msg excludeID.
    destruct (Broadcast_open t msg excludeID Hok Hopen) as (t' & -> & Hok' & _).
    by eexists.
  - intros id msg. rewrite SendToServer_open by done.
    eexists. split; [reflexivity|].
    destruct (Nat.ltb_spec (length (chan_buf (incoming t))) 100); [|done].
    split; cbn [fst channels incoming closed]; rewrite Hopen; [done|].
    by apply chan_ok_push.
  - rewrite Close_open by done. eexists. split; [reflexivity|].
    split; [by apply Close_ok | done].
Qed.

Lemma transport_ok_new : transport_ok (@NewLocalTransport Message).
Proof.
  split; [apply map_Forall_empty|]. repeat split; cbn; lia.
Qed.

(** X21.  After [Close], [Unregister] of a client that is still registered
    panics: [Close] has closed the client's channel and left it in the map,
    and [Unregister] closes it again. *)
Theorem unregister_after_close_panics t (clientID : string) :
  transport_ok t → closed t = false →
  is_Some (channels t !! clientID) →
  ∃ t', Close t = Returned (t', None) ∧ Unregister t' clientID = Panicked.
Proof.
  intros Hok Hopen [ch Hch]. rewrite Close_open by done.
  eexists. split; [reflexivity|].
  unfold Unregister. cbn [channels]. rewrite lookup_fmap, Hch. done.
Qed.

(** X22.  [Close] is final and idempotent: a second [Close] changes
    nothing, and [Register], [Send], [Broadcast] and [SendToServer] then
    fail with "transport is closed" and change nothing.  The messages that
    were queued at the time of [Close] stay in their queues. *)
Theorem closed_transport_refuses t :
  transport_ok t → closed t = false →
  ∃ t', Close t = Returned (t', None)
        ∧ Close t' = Returned (t', None)
        ∧ (∀ id, Register t' id = (t', Some ErrClosed))
        ∧ (∀ id msg, Send t' id msg = Returned (t', Some ErrClosed))
        ∧ (∀ msg excludeID,
              Broadcast t' msg excludeID = Returned (t', Some ErrClosed))
        ∧ (∀ id msg, SendToServer t' id msg = Returned (t', Some ErrClosed))
        ∧ (∀ id, queue t' id = queue t id)
        ∧ chan_buf (incoming t') = chan_buf (incoming t).
Proof.
  intros Hok Hopen. rewrite Close_open by done.
  eexists. split; [reflexivity|]. repeat split.
  intros id. unfold queue. cbn [channels]. rewrite lookup_fmap.
  by destruct (channels t !! id).
Qed.

(** X23.  On an open transport [Send] to a registered client whose queue
    has room puts the message at the tail of that queue and touches no
    other queue; the client then reads the oldest message of the queue.
    [Send] to an unknown client, or to one whose queue holds 100 messages,
    fails and changes nothing. *)
Theorem send_queues_in_order t (clientID : string) (msg : Message) :
  transport_ok t → closed t = false →
  match queue t clientID with
  | None => Send t clientID msg = Returned (t, Some (ErrNotFound clientID))
  | Some q =>
      if length q <? 100 then
        ∃ t', Send t clientID msg = Returned (t', None)
              ∧ queue t' clientID = Some (q ++ [msg])
              ∧ delete clientID (channels t') = delete clientID (channels t)
              ∧ incoming t' = incoming t
              ∧ ∃ t'', client_receive t' clientID
                       = Some (hd msg q, t'')
                       ∧ queue t'' clientID = Some (tl (q ++ [msg]))
      else Send t clientID msg = Returned (t, Some (ErrChannelFull clientID))
  end.
Proof.
  intros Hok Hopen. pose proof (Send_open t clientID msg Hok Hopen) as Hsend.
  destruct (queue t clientID) as [q|] eqn:Hq; [|done].
  destruct (length q <? 100); [|done].
  destruct Hsend as (t' & Hrun & _ & _ & Hinc & Hq' & Hrest).
  exists t'. repeat (split; [done|]).
  unfold queue in Hq'. unfold client_receive.
  destruct (channels t' !! clientID) as [ch'|]; [|done].
  injection Hq' as Hbuf. unfold recv. rewrite Hbuf.
  destruct q as [|m0 q]; cbn [app hd tl]; eexists; (split; [reflexivity|]);
    unfold queue; cbn [channels with_channels];
    by rewrite lookup_insert_eq.
Qed.

(** X24.  On an open transport [Broadcast] never fails: it puts the message
    at the tail of the queue of every registered client other than
    [excludeID] whose queue has room, and leaves the queues of the excluded
    client and of the clients whose queue holds 100 messages as they
    are. *)
Theorem broadcast_reaches_clients_with_room t (msg : Message)
    (excludeID : string) :
  transport_ok t → closed t = false →
  ∃ t', Broadcast t msg excludeID = Returned (t', None)
        ∧ incoming t' = incoming t
        ∧ dom (channels t') = dom (channels t)
        ∧ ∀ id, queue t' id
                = (fun q => if decide (id = excludeID) then q
                            else if length q <? 100 then q ++ [msg] else q)
                  <$> queue t id.
Proof.
  intros Hok Hopen.
  destruct (Broadcast_open t msg excludeID Hok Hopen)
    as (t' & Hrun & _ & _ & Hinc & Hqueues).
  exists t'. repeat (split; [done|]). split; [|done].
  apply set_eq. intros id. rewrite !elem_of_dom.
  pose proof (Hqueues id) as Hid. unfold queue in Hid.
  destruct (channels t' !! id), (channels t !! id); cbn in Hid;
    try done; split; intros [? ?]; done.
Qed.

(** X25.  A message a client hands to [SendToServer] while the server's
    queue is empty is what [Receive] returns next, with the client's id,
    and the transport is then as it was before.  [Receive] on an open
    transport with an empty queue blocks. *)
Theorem server_receives_what_was_sent t (clientID : string) (msg : Message) :
  transport_ok t → closed t = false → chan_buf (incoming t) = [] →
  Receive t = Receive_blocks
  ∧ ∃ t', SendToServer t clientID msg = Returned (t', None)
          ∧ Receive t' = Receive_ok clientID msg t.
Proof.
  intros Hok Hopen Hempty. pose proof Hok as [_ Hinc]. rewrite Hopen in Hinc.
  split.
  - unfold Receive, recv. rewrite Hempty. by destruct Hinc as (_ & _ & ->).
  - rewrite SendToServer_open by done. rewrite Hempty. cbn [length Nat.ltb Nat.leb].
    eexists. split; [reflexivity|].
    unfold Receive, recv. cbn [incoming chan_buf app chan_cap chan_closed channels
                               closed sender_ClientID sender_Message].
    f_equal. destruct t as [chs [buf cap cl] c]. cbn in *. by subst.
Qed.

End local_transport.

Section local_transport_examples.
Import transport props.

Lemma one_client_ok : transport_ok one_client.
Proof.
  unfold transport_ok, chan_ok, one_client. cbn. split.
  - apply map_Forall_insert_2; [|apply map_Forall_empty].
    cbn. split; [reflexivity|]. split; [apply Nat.le_0_l | reflexivity].
  - split; [reflexivity|]. split; [apply Nat.le_0_l | reflexivity].
Qed.

Lemma open_transport_never_panics_witness :
  transport_ok (fst (Register one_client "client_1"))
  ∧ ∃ t', Close one_client = Returned (t', None)
          ∧ transport_ok t' ∧ closed t' = true.
Proof.
  destruct (open_transport_never_panics one_client one_client_ok eq_refl)
    as (Hregister & _ & _ & _ & _ & Hclose).
  split; [apply Hregister | exact Hclose].
Defined.

Lemma unregister_after_close_panics_witness :
  ∃ t', Close one_client = Returned (t', None)
        ∧ Unregister t' "client_0" = Panicked.
Proof.
  apply (unregister_after_close_panics one_client "client_0" one_client_ok eq_refl).
  vm_compute. eauto.
Defined.

Lemma closed_transport_refuses_witness :
  ∃ t', Close one_client = Returned (t', None)
        ∧ Send t' "client_0" a_move_message = Returned (t', Some ErrClosed)
        ∧ queue t' "client_0" = queue one_client "client_0".
Proof.
  destruct (closed_transport_refuses one_client one_client_ok eq_refl)
    as (t' & Hclose & _ & _ & Hsend & _ & _ & Hqueue & _).
  exists t'. split; [exact Hclose|]. split; [apply Hsend | apply Hqueue].
Defined.

Lemma send_queues_in_order_witness :
  ∃ t', Send one_client "client_0" a_move_message = Returned (t', None)
        ∧ queue t' "client_0" = Some [a_move_message]
        ∧ ∃ t'', client_receive t' "client_0" = Some (a_move_message, t'').
Proof.
  pose proof (send_queues_in_order one_client "client_0" a_move_message
                one_client_ok eq_refl) as Hsend.
  change (queue one_client "client_0") with (Some (@nil BaseMessage)) in Hsend.
  cbn [length Nat.ltb Nat.leb app hd tl] in Hsend.
  destruct Hsend as (t' & Hrun & Hq & _ & _ & t'' & Hrecv & _).
  exists t'. split; [exact Hrun|]. split; [exact Hq|]. by exists t''.
Defined.

Lemma broadcast_reaches_clients_with_room_witness :
  ∃ t', Broadcast one_client a_move_message "" = Returned (t', None)
        ∧ queue t' "client_0" = Some [a_move_message].
Proof.
  destruct (broadcast_reaches_clients_with_room one_client a_move_message ""
              one_client_ok eq_refl) as (t' & Hrun & _ & _ & Hq).
  exists t'. split; [exact Hrun|]. rewrite Hq. vm_compute. reflexivity.
Defined.

Lemma server_receives_what_was_sent_witness :
  Receive one_client = Receive_blocks
  ∧ ∃ t', SendToServer one_client "client_0" a_move_message = Returned (t', None)
          ∧ Receive t' = Receive_ok "client_0" a_move_message one_client.
Proof.
  apply (server_receives_what_was_sent one_client "client_0" a_move_message
           one_client_ok eq_refl eq_refl).
Defined.

End local_transport_examples.

(** ** From one participant to the other *)

Section end_to_end.
Import protocol gamesync client server transport spec props examples.



Lemma latest_for_Some (e : string) (batch : list PositionData) (r : PositionData) :
  latest_for e batch = Some r → r ∈ batch ∧ protocol.PlayerID r = e.
Proof.
  induction batch as [|p batch IH]; simpl; [done|].
  destruct (latest_for e batch) as [q|].
  - intros [= <-]. destruct (IH eq_refl). split; [by right | done].
  - destruct (decide (protocol.PlayerID p = e)); [|done].
    intros [= <-]. split; [by left | done].
Qed.

(** The window one batch makes from an empty window. *)
Lemma window_of_one_batch (clientID : string) (batch : list PositionData)
    (e : string) (m : gmap string PositionData) :
  fold_left (store_report clientID) batch ∅ !! e = Some m →
  ∃ r, r ∈ batch ∧ protocol.PlayerID r = e ∧ m = {[clientID := r]}.
Proof.
  intros Hm.
  pose proof (fold_store_report_window_ok clientID batch ∅
                ltac:(apply map_Forall_empty) _ _ Hm) as [Hne _].
  assert (∀ o, m !! o = if decide (o = clientID) then latest_for e batch else None)
    as Hslots.
  { intros o.
    pose proof (fold_store_report_at clientID batch ∅ e o) as Hat.
    unfold report_at in Hat. rewrite Hm, lookup_empty in Hat. rewrite Hat.
    destruct (decide (o = clientID)); [|done].
    by destruct (latest_for e batch). }
  destruct (latest_for e batch) as [r|] eqn:Hr.
  - apply latest_for_Some in Hr as [Hin Hid]. exists r. repeat split; try done.
    apply map_eq. intros o. rewrite Hslots.
    destruct (decide (o = clientID)) as [->|Ho].
    + by rewrite lookup_singleton_eq.
    + by rewrite lookup_singleton_ne.
  - exfalso. apply Hne, map_eq. intros o. rewrite Hslots, lookup_empty.
    by destruct (decide (o = clientID)).
Qed.

Lemma report_of_is_accepted (c : GameClient) (id : string)
    (player : LocalPlayerState) (t : Z) :
  localPlayers c !! id = Some player → client.PlayerID player = id →
  handlePositionUpdate c
    {| upd_PlayerID := protocol.PlayerID (report_of t player);
       upd_X := protocol.X (report_of t player);
       upd_Y := protocol.Y (report_of t player);
       upd_GameTime := GameTime (report_of t player) |}
  = c.
Proof.
  intros Hplayer Hid.
  unfold handlePositionUpdate, client.parseData, json.round_trip.
  destruct (json.supported _); [|done]. unfold report_of.
  cbv beta iota zeta delta
    [mbind mret on_player_bind on_player_ret read predictPosition fst snd
     upd_PlayerID upd_X upd_Y upd_GameTime
     protocol.PlayerID protocol.X protocol.Y GameTime].
  rewrite Hid, Hplayer.
  rewrite no_correction by apply sub_self_zero_or_nan.
  cbv beta iota zeta delta [mret on_player_ret snd].
  rewrite insert_id by done. apply with_localPlayers_same.
Qed.

Section lone_client.
Variable range_order : ∀ A : Type, gmap string A → list (string * A).
Hypothesis range_order_ok : visits_each_entry_once range_order.
Variable pa : PositionArbitrator.

(** X27.  A client that is alone in reporting is never corrected.  When
    the batch of its periodic report is all the server has received, every
    position update of the next arbitration cycle is one that the client,
    in the state it reported from, takes without any change.  There is
    such an update exactly when every prediction in the batch is finite;
    otherwise the batch does not decode and the cycle sends nothing. *)
Theorem lone_client_is_never_corrected (c : GameClient) (clientID : string)
    (t : Z) (batch : PositionSyncData) (players : gmap string PlayerState) :
  keyed_by_id (localPlayers c) →
  snd (reportPositions range_order c t) = Some batch →
  ∃ s' players' calls,
    performArbitration range_order pa
      (handlePositionSync {| positionReports := ∅ |} clientID batch) players
    = Returned (s', players', calls)
    ∧ (if forallb (fun pos => is_finite (protocol.X pos) && is_finite (protocol.Y pos))
            (Positions batch)
       then calls ≠ []
       else calls = [])
    ∧ Forall (fun call => ∃ u, update_of call = Some u
                               ∧ handlePositionUpdate c u = c) calls.
Proof.
  intros Hkeyed Hbatch.
  assert (Positions batch
          = map (fun entry => report_of t (snd entry))
              (range_order _ (localPlayers c))
          ∧ Positions batch ≠ []) as [Hpositions Hsome].
  { unfold reportPositions in Hbatch. cbn [snd] in Hbatch.
    destruct (0 <? length _)%nat eqn:Hlen in Hbatch; [|done].
    injection Hbatch as <-. cbn [Positions]. split; [done|].
    intros Hnil. rewrite Hnil in Hlen. done. }
  unfold performArbitration, handlePositionSync, server.parseData,
    json.round_trip.
  rewrite supported_PositionSyncData.
  destruct (forallb _ (Positions batch)); cbn [positionReports].
  2: { assert (range_order _ (∅ : gmap string (gmap string PositionData)) = [])
         as ->.
       { pose proof (range_order_ok _ (∅ : gmap string (gmap string PositionData)))
           as Hvisits.
         rewrite map_to_list_empty in Hvisits.
         by apply Permutation_nil_r in Hvisits. }
       cbn [arbitrate_all]. eexists _, _, _. split; [reflexivity|].
       split; [done | constructor]. }
  set (w := fold_left (store_report clientID) (Positions batch) ∅).
  destruct (arbitrate_all_spec range_order pa (range_order _ w) players []
              (range_order_keys range_order range_order_ok _ _))
    as (players' & Hrun & _).
  rewrite Hrun. eexists _, _, _. split; [reflexivity|]. cbn [app].
  assert (∀ e m, (e, m) ∈ range_order _ w →
            ∃ id player,
              localPlayers c !! id = Some player
              ∧ verdict range_order pa m = Some (report_of t player)) as Hentries.
  { intros e m Hin. rewrite (range_order_ok _ w) in Hin.
    apply elem_of_map_to_list in Hin.
    apply window_of_one_batch in Hin as (r & Hr & _ & ->).
    rewrite Hpositions in Hr.
    apply list_elem_of_fmap in Hr as ([id player] & -> & Hentry).
    rewrite (range_order_ok _ (localPlayers c)) in Hentry.
    apply elem_of_map_to_list in Hentry.
    exists id, player. split; [done|].
    by apply verdict_of_single_report. }
  split.
  - destruct (Positions batch) as [|pos rest] eqn:Hb; [done|].
    assert (is_Some (w !! protocol.PlayerID pos)) as [m Hm].
    { destruct (w !! protocol.PlayerID pos) as [m|] eqn:Hw; [by eexists|].
      pose proof (fold_store_report_at clientID (pos :: rest) ∅
                    (protocol.PlayerID pos) clientID) as Hat.
      unfold report_at in Hat. fold w in Hat. rewrite Hw in Hat.
      rewrite decide_True in Hat by done. cbn [latest_for] in Hat.
      destruct (latest_for (protocol.PlayerID pos) rest); [done|].
      by rewrite decide_True in Hat. }
    assert ((protocol.PlayerID pos, m) ∈ range_order _ w) as Hin.
    { rewrite (range_order_ok _ w). by apply elem_of_map_to_list. }
    destruct (Hentries _ _ Hin) as (id & player & _ & Hv).
    intros Hnil.
    assert (position_update_call (report_of t player)
            ∈ omap (fun entry =>
                      position_update_call
                        <$> verdict range_order pa (snd entry))
                (range_order _ w)) as Hcall.
    { apply list_elem_of_omap. exists (protocol.PlayerID pos, m). split; [done|].
      cbn [snd]. by rewrite Hv. }
    rewrite Hnil in Hcall. by apply elem_of_nil in Hcall.
  - apply Forall_forall. intros call Hcall.
    apply list_elem_of_omap in Hcall as ([e m] & Hin & Hcall).
    destruct (Hentries _ _ Hin) as (id & player & Hplayer & Hv).
    cbn [snd] in Hcall. rewrite Hv in Hcall. injection Hcall as <-.
    eexists. split; [reflexivity|].
    apply (report_of_is_accepted c id player t Hplayer).
    by apply (Hkeyed _ _ Hplayer).
Qed.

End lone_client.

Lemma lone_client_is_never_corrected_witness :
  ∃ s' players' calls,
    performArbitration listed_order server_arbitrator
      (handlePositionSync {| positionReports := ∅ |} "client_1"
         {| Positions := [report "Alice" 0 0 1000]; sync_GameTime := 1000 |}) ∅
    = Returned (s', players', calls)
    ∧ calls ≠ []
    ∧ Forall (fun call => ∃ u, update_of call = Some u
                               ∧ handlePositionUpdate tracking_client u
                                 = tracking_client) calls.
Proof.
  apply (lone_client_is_never_corrected listed_order listed_order_ok
           server_arbitrator tracking_client "client_1" 1000).
  - apply map_Forall_singleton. reflexivity.
  - vm_compute. reflexivity.
Defined.

End end_to_end.
